(** * Tool-call orchestration with reasoning models

    A shallow embedding of the Python cells of
    [examples/reasoning_function_calls.ipynb]: the helper
    [invoke_functions_from_response], the inline function-call cell that
    precedes it, the response loop driven by [previous_response_id] and the
    manually orchestrated conversation loop.

    The notebook is imperative: it mutates the global list [conversation],
    prints, calls the hosted endpoint and calls local tools.  The embedding
    threads one explicit state, [notebook], through a small exception monad.
    Everything outside the interpreter (the hosted model, the services behind
    the tools, the random generator of [uuid4]) is an abstract world [W]; the
    endpoint and the tools are functions that read and replace it. *)

From stdpp Require Import base list strings gmap pretty.
From Stdlib Require Import ZArith.

(** ** Data *)

(** A Python exception that derives from [Exception]: its class name and
    [str(e)]. *)
Record exception := Exception { exc_class : string; exc_str : string }.

(** The items of [response.output], by their [type]. *)
Inductive response_item :=
| ResponseReasoningItem (id : string) (summary : list string)
    (* type == 'reasoning'; summary: the text of each Summary *)
| ResponseFunctionToolCall (id call_id name arguments : string)
    (* type == 'function_call'; arguments is a JSON document, unparsed *)
| ResponseOutputMessage (id text : string)
    (* type == 'message'; text: its output_text content *)
| ResponseOtherItem (id : string).
    (* any other type: no cell looks at it *)

(** [rx.type == 'reasoning'], [rx.type == 'function_call'],
    [rx.type == 'message']. *)
Definition is_reasoning (rx : response_item) : bool :=
  match rx with ResponseReasoningItem _ _ => true | _ => false end.
Definition is_function_call (rx : response_item) : bool :=
  match rx with ResponseFunctionToolCall _ _ _ _ => true | _ => false end.
Definition is_message (rx : response_item) : bool :=
  match rx with ResponseOutputMessage _ _ => true | _ => false end.

(** The dictionaries kept in [conversation] and sent as [input]. *)
Inductive conversation_item :=
| user_message (content : string)
    (* {"role": "user", "type": "message", "content": content} *)
| function_call_output (call_id output : string)
    (* {"type": "function_call_output", "call_id": .., "output": ..} *)
| to_dict (rx : response_item).
    (* rx.to_dict() *)

Record Response := {
  response_id : string;                 (* response.id *)
  output : list response_item;          (* response.output *)
  total_tokens : Z                      (* response.usage.total_tokens *)
}.

(** [response.output_text]: the SDK joins the text of the message items. *)
Definition output_text (response : Response) : string :=
  String.concat EmptyString
    (omap (λ rx, match rx with ResponseOutputMessage _ t => Some t | _ => None end)
          (output response)).

(** The list comprehensions of the manual loop, before [to_dict]. *)
Definition reasoning_items (response : Response) : list response_item :=
  filter (λ rx, is_reasoning rx = true) (output response).
Definition function_call_items (response : Response) : list response_item :=
  filter (λ rx, is_function_call rx = true) (output response).
Definition message_items (response : Response) : list response_item :=
  filter (λ rx, is_message rx = true) (output response).

(** [call_id] of a conversation dictionary that has one. *)
Definition item_call_id (item : conversation_item) : option string :=
  match item with
  | function_call_output c _ => Some c
  | to_dict (ResponseFunctionToolCall _ c _ _) => Some c
  | _ => None
  end.

Definition request_call_id (rx : response_item) : option string :=
  match rx with ResponseFunctionToolCall _ c _ _ => Some c | _ => None end.

(** What one item of [response.output] adds to [intermediate_messages]:
    one output under the call_id of a function call, nothing for any other
    item. *)
Definition item_outputs (rx : response_item) (outs : list conversation_item)
  : Prop :=
  match request_call_id rx with
  | Some call_id => ∃ tool_output, outs = [function_call_output call_id tool_output]
  | None => outs = []
  end.

(** [out] is a function-call output under the call_id of the request [rx]. *)
Definition answers (rx : response_item) (out : conversation_item) : bool :=
  match rx, out with
  | ResponseFunctionToolCall _ c _ _, function_call_output c' _ => bool_decide (c = c')
  | _, _ => false
  end.

(** The kinds of conversation items the claims tell apart. *)
Definition is_reasoning_step (item : conversation_item) : bool :=
  match item with to_dict rx => is_reasoning rx | _ => false end.
Definition is_tool_result (item : conversation_item) : bool :=
  match item with function_call_output _ _ => true | _ => false end.

Definition is_user_message (item : conversation_item) : bool :=
  match item with user_message _ => true | _ => false end.

(** The pairing the endpoint asks of an input: every function call is
    immediately followed by a function-call output under its call_id, and no
    output stands without its call. *)
Fixpoint well_paired (items : list conversation_item) : bool :=
  match items with
  | [] => true
  | to_dict (ResponseFunctionToolCall _ c _ _) :: rest =>
      match rest with
      | function_call_output c' _ :: rest' =>
          bool_decide (c = c') && well_paired rest'
      | _ => false
      end
  | function_call_output _ _ :: _ => false
  | _ :: rest => well_paired rest
  end.

(** What [client.responses.create] is given. *)
Inductive input_payload :=
| input_text (question : string)
| input_items (items : list conversation_item).

Record request := {
  input : input_payload;
  previous_response_id : option string
}.

(** Calls that leave the interpreter, in program order. *)
Inductive event :=
| endpoint_called (req : request)
| tool_entered (rx : response_item)
| tool_left (rx : response_item).

Definition is_endpoint_call (ev : event) : bool :=
  match ev with endpoint_called _ => true | _ => false end.

(** The item lists sent as [input], in the order of the calls. *)
Definition sent_inputs (events : list event) : list (list conversation_item) :=
  omap (λ ev, match ev with
              | endpoint_called {| input := input_items items |} => Some items
              | _ => None
              end) events.

(** The event is no endpoint call, or one in the manner of the manual loop:
    a list of items and no [previous_response_id]. *)
Definition stateless_call (ev : event) : bool :=
  match ev with
  | endpoint_called {| input := input_items _; previous_response_id := None |} => true
  | endpoint_called _ => false
  | _ => true
  end.

(** [low], then each list of [sent] in turn, then [high]: each a prefix of
    the next. *)
Fixpoint chain (low : list conversation_item)
    (sent : list (list conversation_item)) (high : list conversation_item)
  : Prop :=
  match sent with
  | [] => low `prefix_of` high
  | items :: rest => low `prefix_of` items ∧ chain items rest high
  end.

(** An endpoint call of the manual loop whose input is well paired; any
    other event passes. *)
Definition sends_well_paired (ev : event) : bool :=
  match ev with
  | endpoint_called {| input := input_items items |} => well_paired items
  | _ => true
  end.

Definition newline : string := String (Ascii.ascii_of_nat 10) EmptyString.

(** The row of 79 asterisks around each user message. *)
Definition stars : string := String.concat EmptyString (replicate 79 "*").

(** ** The interpreter *)

Inductive outcome (A : Type) :=
| Returns (a : A)
| Raises (e : exception)
| OutOfFuel.            (* a [while True] loop that is still running *)
Arguments Returns {A} a.
Arguments Raises {A} e.
Arguments OutOfFuel {A}.

Inductive control := Continue | Break.

(** The two diagnostic texts of [invoke_functions_from_response]. *)
Definition unregistered_message (name : string) : string :=
  "ERROR - No tool registered for function call: " +:+ name.
Definition failure_message (name : string) (e : exception) : string :=
  "Error executing function call: " +:+ name +:+ ": " +:+ exc_str e.

(** A tool, called with the parsed arguments as keywords: it returns text or
    raises, and may change the world. *)
Definition tool (W J : Type) : Type := J → W → (exception + string) * W.

(** What the notebook takes from outside: the JSON parser, the renderings an
    f-string uses, the tool table and the hosted endpoint.  [W] is the world
    outside the interpreter, [J] the type of parsed JSON values. *)
Class Runtime (W J : Type) := {
  (** [json.loads]: a parsed value, or the exception it raises. *)
  json_loads : string → exception + J;
  (** How an f-string renders the parsed arguments and a reasoning summary. *)
  repr_arguments : J → string;
  repr_summary : list string → string;
  (** The last line of the manual cell (it formats a float percentage). *)
  format_usage : Z → string;
  (** [tool_mapping]: the name-to-function dictionary. *)
  tool_mapping : gmap string (tool W J);
  (** [client.responses.create] with [input], [previous_response_id] and the
      model defaults: a response, or the error raised by the transport or the
      endpoint. *)
  responses_create : request → W → (exception + Response) * W
}.

Section Notebook.

Context {W J : Type} {RT : Runtime W J}.

Record notebook := {
  world : W;
  stdout : list string;
  trace : list event;
  conversation : list conversation_item;
  total_tokens_used : Z
}.

Definition M (A : Type) : Type := notebook → outcome A * notebook.

#[global] Instance M_ret : MRet M := λ A a s, (Returns a, s).
#[global] Instance M_bind : MBind M := λ A B k m s,
  match m s with
  | (Returns a, s') => k a s'
  | (Raises e, s') => (Raises e, s')
  | (OutOfFuel, s') => (OutOfFuel, s')
  end.

Definition raise {A} (e : exception) : M A := λ s, (Raises e, s).
Definition out_of_fuel {A} : M A := λ s, (OutOfFuel, s).

(** [try: body / except Exception as e: handler e] *)
Definition try_except {A} (body : M A) (handler : exception → M A) : M A :=
  λ s, match body s with
       | (Raises e, s') => handler e s'
       | r => r
       end.

Definition print (line : string) : M unit := λ s,
  (Returns (),
   {| world := world s; stdout := stdout s ++ [line]; trace := trace s;
      conversation := conversation s;
      total_tokens_used := total_tokens_used s |}).

Definition log (ev : event) : M unit := λ s,
  (Returns (),
   {| world := world s; stdout := stdout s; trace := trace s ++ [ev];
      conversation := conversation s;
      total_tokens_used := total_tokens_used s |}).

(** Run an external call on the world and turn its result into an outcome. *)
Definition external {A} (f : W → (exception + A) * W) : M A := λ s,
  let r := f (world s) in
  (match r.1 with inl e => Raises e | inr a => Returns a end,
   {| world := r.2; stdout := stdout s; trace := trace s;
      conversation := conversation s;
      total_tokens_used := total_tokens_used s |}).

Definition pure_call {A} (r : exception + A) : M A :=
  match r with inl e => raise e | inr a => mret a end.

(** [conversation.extend(items)]; [conversation.append(x)] is [extend [x]]. *)
Definition extend (items : list conversation_item) : M unit := λ s,
  (Returns (),
   {| world := world s; stdout := stdout s; trace := trace s;
      conversation := conversation s ++ items;
      total_tokens_used := total_tokens_used s |}).

(** [conversation = []; total_tokens_used = 0] *)
Definition reset : M unit := λ s,
  (Returns (),
   {| world := world s; stdout := stdout s; trace := trace s;
      conversation := []; total_tokens_used := 0%Z |}).

(** [total_tokens_used += n] *)
Definition add_tokens (n : Z) : M unit := λ s,
  (Returns (),
   {| world := world s; stdout := stdout s; trace := trace s;
      conversation := conversation s;
      total_tokens_used := (total_tokens_used s + n)%Z |}).

Definition get_conversation : M (list conversation_item) :=
  λ s, (Returns (conversation s), s).
Definition get_total_tokens_used : M Z :=
  λ s, (Returns (total_tokens_used s), s).

(** [for x in xs: acc = body x acc] *)
Fixpoint for_in {A B} (xs : list A) (body : A → B → M B) (acc : B) : M B :=
  match xs with
  | [] => mret acc
  | x :: xs' => acc' ← body x acc; for_in xs' body acc'
  end.

(** [client.responses.create(..)] *)
Definition create (req : request) : M Response :=
  log (endpoint_called req);; external (responses_create req).

(** The call of [target_tool] for the request [rx]. *)
Definition call_tool (rx : response_item) (target_tool : tool W J) (arguments : J)
  : M string :=
  log (tool_entered rx);;
  try_except
    (tool_output ← external (target_tool arguments);
     log (tool_left rx);; mret tool_output)
    (λ e, log (tool_left rx);; raise e).

(** ** [invoke_functions_from_response] *)

(** The body of [for response_item in response.output]. *)
Definition invoke_response_item (response_item : response_item)
    (intermediate_messages : list conversation_item)
  : M (list conversation_item) :=
  match response_item with
  | ResponseFunctionToolCall _ call_id name arguments_json =>
      tool_output ←
        match tool_mapping !! name with
        | Some target_tool =>
            try_except
              (arguments ← pure_call (json_loads arguments_json);
               print ("Invoking tool: " +:+ name +:+ "(" +:+
                      repr_arguments arguments +:+ ")");;
               call_tool response_item target_tool arguments)
              (λ e,
               let msg := failure_message name e in
               print msg;; mret msg)
        | None =>
            let msg := unregistered_message name in
            print msg;; mret msg
        end;
      mret (intermediate_messages ++ [function_call_output call_id tool_output])
  | ResponseReasoningItem _ summary =>
      print ("Reasoning step: " +:+ repr_summary summary);;
      mret intermediate_messages
  | _ => mret intermediate_messages
  end.

Definition invoke_functions_from_response (response : Response)
  : M (list conversation_item) :=
  for_in (output response) invoke_response_item [].

(** ** The inline function-call cell

    The first, single-round version of the same logic, written before the
    helper above: it has no [try] and raises on a name it does not know. *)

Definition inline_function_call (function_call : response_item)
    (new_conversation_items : list conversation_item)
  : M (list conversation_item) :=
  match function_call with
  | ResponseFunctionToolCall _ call_id name arguments_json =>
      match tool_mapping !! name with
      | None =>
          raise (Exception "ValueError"
                   ("No tool found for function call: " +:+ name))
      | Some target_tool =>
          arguments ← pure_call (json_loads arguments_json);
          tool_output ← call_tool function_call target_tool arguments;
          mret (new_conversation_items ++
                [function_call_output call_id tool_output])
      end
  | _ => mret new_conversation_items
  end.

Definition inline_function_calls (response : Response)
  : M (list conversation_item) :=
  let function_calls := function_call_items response in
  for_in function_calls inline_function_call [].

(** ** The response loop over [previous_response_id] *)

Fixpoint previous_response_loop (fuel : nat) (response : Response) : M unit :=
  match fuel with
  | O => out_of_fuel
  | S fuel' =>
      function_responses ← invoke_functions_from_response response;
      if decide (length function_responses = 0%nat) then
        print (output_text response)
      else
        print "More reasoning required, continuing...";;
        response' ← create {| input := input_items function_responses;
                              previous_response_id := Some (response_id response) |};
        previous_response_loop fuel' response'
  end.

Definition previous_response_cell (fuel : nat) (initial_question : string)
  : M unit :=
  response ← create {| input := input_text initial_question;
                       previous_response_id := None |};
  previous_response_loop fuel response.

(** ** The manually orchestrated conversation *)

(** [[val for pair in zip(function_calls, function_outputs) for val in pair]] *)
Definition interleave (function_calls function_outputs : list conversation_item)
  : list conversation_item :=
  zip function_calls function_outputs ≫= λ pair, [pair.1; pair.2].

Definition summary_of (rx : response_item) : list string :=
  match rx with ResponseReasoningItem _ summary => summary | _ => [] end.

Definition when (b : bool) (body : M unit) : M unit :=
  if b then body else mret ().

Definition nonempty {A} (l : list A) : bool := bool_decide (0 < length l)%nat.

(** One pass through the body of [while True]. *)
Definition response_loop_body : M control :=
  conversation_now ← get_conversation;
  response ← create {| input := input_items conversation_now;
                       previous_response_id := None |};
  add_tokens (total_tokens response);;
  let reasoning := to_dict <$> reasoning_items response in
  let function_calls := to_dict <$> function_call_items response in
  let messages := to_dict <$> message_items response in
  when (nonempty reasoning)
    (print "More reasoning required, continuing...";;
     extend reasoning;;
     print (String.concat newline (reasoning_items response ≫= summary_of)));;
  when (nonempty function_calls)
    (function_outputs ← invoke_functions_from_response response;
     let interleaved := interleave function_calls function_outputs in
     extend interleaved);;
  when (nonempty messages)
    (print (output_text response);;
     extend messages);;
  if decide (length function_calls = 0%nat) then mret Break else mret Continue.

Fixpoint response_loop (fuel : nat) : M unit :=
  match fuel with
  | O => out_of_fuel
  | S fuel' =>
      c ← response_loop_body;
      match c with
      | Break => mret ()
      | Continue => response_loop fuel'
      end
  end.

(** The body of [for message in user_messages]. *)
Definition begin_user_turn (message : string) : M unit :=
  let conversation_item := user_message message in
  print (stars +:+ newline +:+ "User message: " +:+ message +:+ newline +:+ stars);;
  extend [conversation_item].

Definition user_turn (fuel : nat) (message : string) : M unit :=
  begin_user_turn message;;
  response_loop fuel.

Definition user_turns (fuel : nat) (user_messages : list string) : M unit :=
  for_in user_messages (λ message _, user_turn fuel message) ().

Definition manual_conversation_cell (fuel : nat) (user_messages : list string)
  : M unit :=
  reset;;
  user_turns fuel user_messages;;
  total ← get_total_tokens_used;
  print (format_usage total).

(** ** Reading a run *)

(** The request the manual loop sends from a state. *)
Definition manual_request (s : notebook) : request :=
  {| input := input_items (conversation s); previous_response_id := None |}.

(** The state after [k] passes of the loop body that all asked to continue. *)
Fixpoint continued (k : nat) (s : notebook) : option notebook :=
  match k with
  | O => Some s
  | S k' =>
      match response_loop_body s with
      | (Returns Continue, s') => continued k' s'
      | _ => None
      end
  end.

(** A pass from [s] ends the loop: the endpoint call raises, or its response
    holds no function call. *)
Definition round_stops (s : notebook) : bool :=
  match (responses_create (manual_request s) (world s)).1 with
  | inl _ => true
  | inr response => bool_decide (function_call_items response = [])
  end.

(** The requests whose tool is really called: the name is registered and the
    arguments parse. *)
Definition invoked (rx : response_item) : bool :=
  match rx with
  | ResponseFunctionToolCall _ _ name arguments_json =>
      match tool_mapping !! name, json_loads arguments_json with
      | Some _, inr _ => true
      | _, _ => false
      end
  | _ => false
  end.

(** The world after the tool call of [rx], if it has one. *)
Definition run_tool (w : W) (rx : response_item) : W :=
  match rx with
  | ResponseFunctionToolCall _ _ name arguments_json =>
      match tool_mapping !! name, json_loads arguments_json with
      | Some target_tool, inr arguments => (target_tool arguments w).2
      | _, _ => w
      end
  | _ => w
  end.

(** The [try] block of a registered tool raises [e] in world [w]: the
    arguments do not parse, or the tool itself raises. *)
Definition try_block_raises (target_tool : tool W J) (arguments_json : string)
    (w : W) (e : exception) : Prop :=
  match json_loads arguments_json with
  | inl e' => e' = e
  | inr arguments => (target_tool arguments w).1 = inl e
  end.

Definition tool_events (items : list response_item) : list event :=
  filter (λ rx, invoked rx = true) items ≫= λ rx, [tool_entered rx; tool_left rx].

End Notebook.

(** ** Scenarios

    A small closed runtime to run the cells on: the world counts the endpoint
    calls answered so far, the endpoint plays a script and then repeats a
    fallback answer, parsed JSON is kept as text. *)
Module Scenario.

Definition json_loads_text (s : string) : exception + string :=
  if decide (s = "{") then
    inl (Exception "JSONDecodeError" "Expecting property name enclosed in double quotes")
  else inr s.

Definition echo : string → nat → (exception + string) * nat :=
  λ arguments w, (inr arguments, w).

Definition failing : string → nat → (exception + string) * nat :=
  λ _ w, (inl (Exception "RuntimeError" "boom"), w).

Definition scripted (script : list (exception + Response))
    (fallback : exception + Response)
  : request → nat → (exception + Response) * nat :=
  λ _ w, (nth w script fallback, S w).

Definition runtime (script : list (exception + Response))
    (fallback : exception + Response) : Runtime nat string := {|
  json_loads := json_loads_text;
  repr_arguments := id;
  repr_summary := String.concat ", ";
  format_usage := λ n, "Total tokens used: " +:+ pretty n;
  tool_mapping := {[ "echo" := echo; "failing" := failing ]};
  responses_create := scripted script fallback
|}.

Definition fresh : notebook := {|
  world := 0%nat; stdout := []; trace := []; conversation := [];
  total_tokens_used := 0%Z
|}.

Definition pong : Response := {|
  response_id := "resp_pong";
  output := [ResponseOutputMessage "msg_1" "pong"];
  total_tokens := 7
|}.

Definition call_echo : Response := {|
  response_id := "resp_echo";
  output := [ResponseReasoningItem "rs_1" ["thinking"];
             ResponseFunctionToolCall "fc_1" "c1" "echo" "hi"];
  total_tokens := 11
|}.

Definition call_mystery : Response := {|
  response_id := "resp_mystery";
  output := [ResponseFunctionToolCall "fc_2" "c2" "mystery" "hi"];
  total_tokens := 5
|}.

Definition call_three : Response := {|
  response_id := "resp_three";
  output := [ResponseReasoningItem "rs_3" ["plan"];
             ResponseFunctionToolCall "fc_3" "c3" "echo" "one";
             ResponseOutputMessage "msg_3" "working";
             ResponseFunctionToolCall "fc_4" "c4" "failing" "two";
             ResponseFunctionToolCall "fc_5" "c5" "echo" "{"];
  total_tokens := 13
|}.

Definition unreachable : exception :=
  Exception "APIConnectionError" "Connection error.".

(** An endpoint that asks for one more tool call in every round. *)
Definition greedy : Runtime nat string := runtime [] (inr call_echo).

End Scenario.


(** * Properties *)

Section Facts.

Context {W J : Type} {RT : Runtime W J}.

Implicit Types (s : notebook (W:=W)) (rx : response_item) (response : Response).

(** ** The monad *)

Lemma bind_unfold {A B} (m : M A) (k : A → M B) s :
  (m ≫= k) s =
  match m s with
  | (Returns a, s') => k a s'
  | (Raises e, s') => (Raises e, s')
  | (OutOfFuel, s') => (OutOfFuel, s')
  end.
Proof. reflexivity. Qed.

Lemma bind_returns {A B} (m : M A) (k : A → M B) s a s' :
  m s = (Returns a, s') → (m ≫= k) s = k a s'.
Proof. intros Hm. rewrite bind_unfold, Hm. reflexivity. Qed.

Lemma bind_raises {A B} (m : M A) (k : A → M B) s e s' :
  m s = (Raises e, s') → (m ≫= k) s = (Raises e, s').
Proof. intros Hm. rewrite bind_unfold, Hm. reflexivity. Qed.

Lemma for_in_app {A B} (xs ys : list A) (body : A → B → M B) acc s :
  for_in (xs ++ ys) body acc s =
  (for_in xs body acc ≫= for_in ys body) s.
Proof.
  revert acc s. induction xs as [|x xs IH]; intros acc s; simpl.
  - reflexivity.
  - rewrite !bind_unfold. destruct (body x acc s) as [[acc'| |] s1]; try reflexivity.
    rewrite IH, bind_unfold. reflexivity.
Qed.

(** ** One item of [response.output] *)

Ltac run :=
  repeat first
    [ rewrite bind_unfold
    | progress unfold try_except, call_tool, pure_call, print, log, external,
        raise, extend, add_tokens, get_conversation, create, when, mret, M_ret
    | progress cbn -[lookup] ].

Ltac settle :=
  rewrite ?app_nil_r; split; [reflexivity|];
  repeat split; cbn -[lookup]; rewrite <- ?app_assoc, ?app_nil_r;
  eauto using prefix_app_r.

Lemma invoke_response_item_spec rx acc s :
  ∃ outs s',
    invoke_response_item rx acc s = (Returns (acc ++ outs), s') ∧
    item_outputs rx outs ∧
    conversation s' = conversation s ∧
    total_tokens_used s' = total_tokens_used s ∧
    trace s' = trace s ++ (if invoked rx then [tool_entered rx; tool_left rx] else []) ∧
    world s' = run_tool (world s) rx ∧
    stdout s `prefix_of` stdout s'.
Proof.
  destruct rx as [i summary|i call_id name arguments_json|i text|i];
    unfold item_outputs, invoke_response_item, invoked, run_tool; cbn -[lookup].
  - eexists [], _. run. settle.
  - destruct (tool_mapping !! name) as [target_tool|] eqn:Hlookup.
    + destruct (json_loads arguments_json) as [e|arguments] eqn:Hjson.
      * eexists [_], _. run. settle.
      * destruct (target_tool arguments (world s)) as [[e|tool_output] w'] eqn:Hcall;
          eexists [_], _; run; rewrite ?Hcall; run; settle.
    + eexists [_], _. run. settle.
  - eexists [], _. run. settle.
  - eexists [], _. run. settle.
Qed.

(** ** The whole of [response.output] *)

Lemma tool_events_cons rx (items : list response_item) :
  tool_events (rx :: items) =
  (if invoked rx then [tool_entered rx; tool_left rx] else []) ++ tool_events items.
Proof.
  unfold tool_events. rewrite filter_cons.
  destruct (invoked rx) eqn:Hrx; case_decide; try done.
Qed.

Lemma invoke_items_spec (items : list response_item) acc s :
  ∃ outs s',
    for_in items invoke_response_item acc s = (Returns (acc ++ outs), s') ∧
    Forall2 (λ rx out, answers rx out = true)
      (filter (λ rx, is_function_call rx = true) items) outs ∧
    conversation s' = conversation s ∧
    total_tokens_used s' = total_tokens_used s ∧
    trace s' = trace s ++ tool_events items ∧
    world s' = foldl run_tool (world s) items ∧
    stdout s `prefix_of` stdout s'.
Proof.
  revert acc s. induction items as [|rx items IH]; intros acc s.
  - exists [], s. rewrite !app_nil_r. repeat split; try done.
  - destruct (invoke_response_item_spec rx acc s)
      as (outs1 & s1 & Hrun1 & Houts1 & Hconv1 & Htok1 & Htrace1 & Hworld1 & Hout1).
    destruct (IH (acc ++ outs1) s1)
      as (outs2 & s2 & Hrun2 & Houts2 & Hconv2 & Htok2 & Htrace2 & Hworld2 & Hout2).
    exists (outs1 ++ outs2), s2. split; [|split; [|repeat split]].
    + cbn [for_in]. rewrite (bind_returns _ _ _ _ _ Hrun1), Hrun2.
      by rewrite app_assoc.
    + rewrite filter_cons. unfold item_outputs in Houts1.
      destruct rx as [i summary|i call_id name arguments_json|i text|i];
        cbn in *; case_decide; try done; try (by subst outs1).
      destruct Houts1 as [tool_output ->]. cbn.
      constructor; [|done]. cbn. by apply bool_decide_eq_true.
    + congruence.
    + congruence.
    + rewrite Htrace2, Htrace1, tool_events_cons. by rewrite app_assoc.
    + cbn [foldl]. congruence.
    + by etrans.
Qed.

Lemma answers_call_id rx out :
  answers rx out = true →
  item_call_id out = request_call_id rx ∧ is_Some (request_call_id rx).
Proof.
  destruct rx, out; cbn; try done.
  intros Heq%bool_decide_eq_true. subst. eauto.
Qed.

Lemma answers_call_ids (requests : list response_item)
    (results : list conversation_item) :
  Forall2 (λ rx out, answers rx out = true) requests results →
  item_call_id <$> results = request_call_id <$> requests.
Proof.
  induction 1 as [|rx out requests results Hans _ IH]; [done|].
  cbn. f_equal; [|done]. by apply answers_call_id.
Qed.

Lemma answers_unique_request (requests : list response_item)
    (results : list conversation_item) out :
  Forall2 (λ rx out, answers rx out = true) requests results →
  NoDup (request_call_id <$> requests) →
  out ∈ results →
  exists ! rx, rx ∈ requests ∧ answers rx out = true.
Proof.
  intros Hpairs Hnodup [i Hi]%list_elem_of_lookup.
  destruct (Forall2_lookup_r _ _ _ _ _ Hpairs Hi) as (rx & Hrx & Hans).
  exists rx. split.
  - split; [|done]. by eapply list_elem_of_lookup_2.
  - intros rx' [[j Hj]%list_elem_of_lookup Hans'].
    destruct (answers_call_id _ _ Hans) as [Hid [c Hc]].
    destruct (answers_call_id _ _ Hans') as [Hid' _].
    assert (i = j) as ->; [|congruence].
    eapply (NoDup_lookup _ _ _ (Some c) Hnodup);
      rewrite list_lookup_fmap; [rewrite Hrx|rewrite Hj]; cbn; congruence.
Qed.

Lemma answers_unique_result (requests : list response_item)
    (results : list conversation_item) rx :
  Forall2 (λ rx out, answers rx out = true) requests results →
  NoDup (request_call_id <$> requests) →
  rx ∈ requests →
  exists ! out, out ∈ results ∧ answers rx out = true.
Proof.
  intros Hpairs Hnodup [i Hi]%list_elem_of_lookup.
  destruct (Forall2_lookup_l _ _ _ _ _ Hpairs Hi) as (out & Hout & Hans).
  exists out. split.
  - split; [|done]. by eapply list_elem_of_lookup_2.
  - intros out' [[j Hj]%list_elem_of_lookup Hans'].
    destruct (Forall2_lookup_r _ _ _ _ _ Hpairs Hj) as (rx' & Hrx' & Hans'').
    destruct (answers_call_id _ _ Hans') as [Hid [c Hc]].
    destruct (answers_call_id _ _ Hans'') as [Hid' _].
    assert (i = j) as ->; [|congruence].
    eapply (NoDup_lookup _ _ _ (Some c) Hnodup);
      rewrite list_lookup_fmap; [rewrite Hi|rewrite Hrx']; cbn; congruence.
Qed.

(** C2.  [invoke_functions_from_response] returns as many function-call
    outputs as the response holds function calls, and the i-th output carries
    the call_id of the i-th function call.  When the call_ids of the requests
    are distinct (the data model's "unique per request"), every output answers
    exactly one request and every request is answered by exactly one output. *)
Theorem invoke_pairs_outputs_with_requests response s :
  ∃ results s',
    invoke_functions_from_response response s = (Returns results, s') ∧
    length results = length (function_call_items response) ∧
    Forall2 (λ rx out, answers rx out = true)
      (function_call_items response) results ∧
    item_call_id <$> results = request_call_id <$> function_call_items response ∧
    (NoDup (request_call_id <$> function_call_items response) →
     (∀ out, out ∈ results →
        exists ! rx, rx ∈ function_call_items response ∧ answers rx out = true) ∧
     (∀ rx, rx ∈ function_call_items response →
        exists ! out, out ∈ results ∧ answers rx out = true)).
Proof.
  destruct (invoke_items_spec (output response) [] s)
    as (results & s' & Hrun & Hpairs & _).
  exists results, s'. split; [exact Hrun|].
  split; [symmetry; by eapply Forall2_length|].
  split; [exact Hpairs|].
  split; [by apply answers_call_ids|].
  intros Hnodup. split.
  - intros out Hout. by eapply answers_unique_request.
  - intros rx Hrx. by eapply answers_unique_result.
Qed.

(** ** One pass of the manual loop *)

Lemma response_loop_body_raises s e w' :
  responses_create (manual_request s) (world s) = (inl e, w') →
  response_loop_body s =
  (Raises e,
   {| world := w'; stdout := stdout s;
      trace := trace s ++ [endpoint_called (manual_request s)];
      conversation := conversation s;
      total_tokens_used := total_tokens_used s |}).
Proof.
  intros Hcreate. unfold response_loop_body. run.
  fold (manual_request s). rewrite Hcreate. reflexivity.
Qed.

Lemma nonempty_fmap {A B} (f : A → B) (l : list A) :
  nonempty (f <$> l) = nonempty l.
Proof. unfold nonempty. by rewrite length_fmap. Qed.

Lemma nonempty_nil {A} (l : list A) : nonempty l = false ↔ l = [].
Proof.
  unfold nonempty. destruct l; cbn; [done|].
  split; [|done]. intros H%bool_decide_eq_false. lia.
Qed.

Ltac case_nonempty l :=
  let H := fresh "Hempty" in
  destruct (nonempty l) eqn:H; [|apply nonempty_nil in H].

Lemma response_loop_body_returns s response w' :
  responses_create (manual_request s) (world s) = (inr response, w') →
  ∃ function_outputs tool_prints s',
    response_loop_body s =
      (Returns (if decide (function_call_items response = []) then Break
                else Continue), s') ∧
    Forall2 (λ rx out, answers rx out = true)
      (function_call_items response) function_outputs ∧
    (function_call_items response ≠ [] →
     ∃ s1 s2, world s1 = w' ∧
       invoke_functions_from_response response s1 = (Returns function_outputs, s2)) ∧
    conversation s' =
      conversation s ++ (to_dict <$> reasoning_items response) ++
      interleave (to_dict <$> function_call_items response) function_outputs ++
      (to_dict <$> message_items response) ∧
    trace s' =
      trace s ++ endpoint_called (manual_request s) ::
      (if nonempty (function_call_items response)
       then tool_events (output response) else []) ∧
    world s' =
      (if nonempty (function_call_items response)
       then foldl run_tool w' (output response) else w') ∧
    total_tokens_used s' = (total_tokens_used s + total_tokens response)%Z ∧
    stdout s' =
      stdout s ++
      (if nonempty (reasoning_items response)
       then ["More reasoning required, continuing...";
             String.concat newline (reasoning_items response ≫= summary_of)]
       else []) ++
      tool_prints ++
      (if nonempty (message_items response) then [output_text response] else []).
Proof.
  intros Hcreate. unfold response_loop_body. run.
  fold (manual_request s). rewrite Hcreate. run.
  rewrite !nonempty_fmap, length_fmap.
  destruct (nonempty (function_call_items response)) eqn:Hcalls.
  - assert (function_call_items response ≠ []) as Hne.
    { intros Hnil. rewrite Hnil in Hcalls. done. }
    rewrite (decide_False (P := function_call_items response = [])) by done.
    rewrite (decide_False (P := length (function_call_items response) = 0%nat))
      by (by destruct (function_call_items response)).
    case_nonempty (reasoning_items response); run;
      match goal with
      | |- context [invoke_functions_from_response response ?s1] =>
          destruct (invoke_items_spec (output response) [] s1)
            as (outs & s2 & Hrun & Hpairs & Hconv & Htok & Htrace & Hworld & [prints Hout])
      end;
      unfold invoke_functions_from_response; rewrite Hrun; run;
      exists outs, prints;
      case_nonempty (message_items response); run;
      (eexists; split; [reflexivity|]);
      (split; [exact Hpairs|]);
      (split; [intros _; eexists _, s2; split; [|exact Hrun]; reflexivity|]);
      cbn in *;
      rewrite ?Hconv, ?Htok, ?Htrace, ?Hworld, ?Hout, ?Hempty, ?Hempty0;
      cbn; rewrite <- ?app_assoc, ?app_nil_r;
      repeat split; done.
  - apply nonempty_nil in Hcalls. rewrite Hcalls.
    rewrite (decide_True (P := @nil response_item = [])) by done.
    rewrite (decide_True (P := length (@nil response_item) = 0%nat)) by done.
    exists [], [].
    case_nonempty (reasoning_items response); run;
      case_nonempty (message_items response); run;
      (eexists; split; [reflexivity|]);
      (split; [constructor|]); (split; [done|]); cbn;
      rewrite ?Hempty, ?Hempty0; cbn;
      rewrite <- ?app_assoc, ?app_nil_r; repeat split; done.
Qed.

(** ** Interleaving requests and outputs *)

Lemma interleave_cons c o (cs os : list conversation_item) :
  interleave (c :: cs) (o :: os) = c :: o :: interleave cs os.
Proof. reflexivity. Qed.

Lemma interleave_lookup (cs os : list conversation_item) i c o :
  cs !! i = Some c → os !! i = Some o →
  interleave cs os !! (2 * i)%nat = Some c ∧
  interleave cs os !! (2 * i + 1)%nat = Some o.
Proof.
  revert os i. induction cs as [|c' cs IH]; intros [|o' os] [|i] Hc Ho;
    try done; rewrite interleave_cons.
  cbn in Hc, Ho. destruct (IH os i Hc Ho) as [H1 H2].
  replace (2 * S i)%nat with (S (S (2 * i))) by lia.
  replace (S (S (2 * i)) + 1)%nat with (S (S (2 * i + 1))) by lia.
  done.
Qed.

Lemma interleave_elem_of (cs os : list conversation_item) o :
  length cs = length os → o ∈ os → o ∈ interleave cs os.
Proof.
  intros Hlen [i Hi]%list_elem_of_lookup.
  destruct (lookup_lt_is_Some_2 cs i) as [c Hc].
  { rewrite Hlen. by eapply lookup_lt_Some. }
  destruct (interleave_lookup cs os i c o Hc Hi) as [_ H2].
  by eapply list_elem_of_lookup_2.
Qed.

(** ** Requests that cannot be served *)

Lemma invoke_unregistered i call_id name arguments_json acc s :
  tool_mapping !! name = None →
  ∃ s',
    invoke_response_item (ResponseFunctionToolCall i call_id name arguments_json)
      acc s =
    (Returns (acc ++ [function_call_output call_id (unregistered_message name)]), s') ∧
    world s' = world s.
Proof.
  intros Hlookup. unfold invoke_response_item. rewrite Hlookup. run. eauto.
Qed.

Lemma invoke_try_block_raises i call_id name arguments_json target_tool e acc s :
  tool_mapping !! name = Some target_tool →
  try_block_raises target_tool arguments_json (world s) e →
  ∃ s',
    invoke_response_item (ResponseFunctionToolCall i call_id name arguments_json)
      acc s =
    (Returns (acc ++ [function_call_output call_id (failure_message name e)]), s').
Proof.
  intros Hlookup Hraises. unfold invoke_response_item, try_block_raises in *.
  rewrite Hlookup.
  destruct (json_loads arguments_json) as [e'|arguments]; run.
  - subst e'. eauto.
  - destruct (target_tool arguments (world s)) as [[e'|tool_output] w'];
      cbn in Hraises; simplify_eq; run; eauto.
Qed.

Lemma invoke_functions_split response before rx after s :
  output response = before ++ rx :: after →
  ∃ earlier s1,
    for_in before invoke_response_item [] s = (Returns earlier, s1) ∧
    length earlier = length (filter (λ rx, is_function_call rx = true) before) ∧
    world s1 = foldl run_tool (world s) before ∧
    invoke_functions_from_response response s =
    (invoke_response_item rx earlier ≫= for_in after invoke_response_item) s1.
Proof.
  intros Hsplit.
  destruct (invoke_items_spec before [] s)
    as (earlier & s1 & Hrun & Hpairs & _ & _ & _ & Hworld & _).
  exists earlier, s1. split; [exact Hrun|].
  split; [symmetry; by eapply Forall2_length|]. split; [done|].
  unfold invoke_functions_from_response. rewrite Hsplit, for_in_app.
  by rewrite (bind_returns _ _ _ _ _ Hrun).
Qed.

Lemma for_in_invoke_extends (items : list response_item) acc s :
  ∃ later s',
    for_in items invoke_response_item acc s = (Returns (acc ++ later), s').
Proof.
  destruct (invoke_items_spec items acc s) as (later & s' & Hrun & _). eauto.
Qed.

(** C3.  A function call whose name is not in [tool_mapping] does not make
    [invoke_functions_from_response] raise: the call returns, and at the
    position of that request its result holds, under the request's call_id,
    the output that reads "ERROR - No tool registered for function call: "
    followed by the name.  A pass of the manual loop over such a response
    does not fail either: it appends that output to the conversation and asks
    for another round. *)
Theorem unregistered_tool_is_reported
    response before after i call_id name arguments_json :
  output response =
    before ++ ResponseFunctionToolCall i call_id name arguments_json :: after →
  tool_mapping !! name = None →
  (∀ s, ∃ earlier later s',
     invoke_functions_from_response response s =
       (Returns (earlier ++
                 function_call_output call_id
                   ("ERROR - No tool registered for function call: " +:+ name)
                 :: later),
        s') ∧
     length earlier = length (filter (λ rx, is_function_call rx = true) before)) ∧
  (∀ s w', responses_create (manual_request s) (world s) = (inr response, w') →
     ∃ s', response_loop_body s = (Returns Continue, s') ∧
       function_call_output call_id
         ("ERROR - No tool registered for function call: " +:+ name)
       ∈ conversation s').
Proof.
  intros Hsplit Hlookup.
  change ("ERROR - No tool registered for function call: " +:+ name)
    with (unregistered_message name).
  assert (∀ s, ∃ earlier later s',
     invoke_functions_from_response response s =
       (Returns (earlier ++
                 function_call_output call_id (unregistered_message name) :: later),
        s') ∧
     length earlier = length (filter (λ rx, is_function_call rx = true) before))
    as Hinvoke.
  { intros s.
    destruct (invoke_functions_split _ _ _ _ s Hsplit)
      as (earlier & s1 & _ & Hlen & _ & ->).
    destruct (invoke_unregistered i call_id name arguments_json earlier s1 Hlookup)
      as (s2 & Hitem & _).
    rewrite (bind_returns _ _ _ _ _ Hitem).
    destruct (for_in_invoke_extends after
                (earlier ++ [function_call_output call_id (unregistered_message name)]) s2)
      as (later & s' & ->).
    exists earlier, later, s'. by rewrite <- app_assoc. }
  split; [exact Hinvoke|].
  intros s w' Hcreate.
  destruct (response_loop_body_returns s response w' Hcreate)
    as (outs & prints & s' & Hbody & Hpairs & Hinv & Hconv & _).
  assert (function_call_items response ≠ []) as Hne.
  { unfold function_call_items. rewrite Hsplit, filter_app, filter_cons.
    cbn. by destruct (filter _ before). }
  exists s'. split.
  - rewrite Hbody. by rewrite decide_False.
  - destruct (Hinv Hne) as (s1 & s2 & _ & Hrun).
    destruct (Hinvoke s1) as (earlier & later & s2' & Hrun' & _).
    rewrite Hrun in Hrun'. injection Hrun' as -> _.
    rewrite Hconv, !elem_of_app. right. right. left.
    apply interleave_elem_of.
    + rewrite length_fmap. by eapply Forall2_length.
    + rewrite elem_of_app, elem_of_cons. auto.
Qed.

(** C4.  When the [try] block of a registered tool raises, because the
    arguments do not parse or because the tool itself raises, in the world
    left by the calls before it, [invoke_functions_from_response] still
    returns: at the position of that request its result holds, under the
    request's call_id, the output that reads
    "Error executing function call: ", the name, ": " and [str(e)], and
    nothing is raised to the caller.  Here [e] is any exception that derives
    from [Exception], which is what [except Exception] catches; the signals
    that end the interpreter (KeyboardInterrupt, SystemExit) do not derive
    from it and are not part of the model. *)
Theorem failing_tool_is_reported
    response before after i call_id name arguments_json target_tool e s :
  output response =
    before ++ ResponseFunctionToolCall i call_id name arguments_json :: after →
  tool_mapping !! name = Some target_tool →
  try_block_raises target_tool arguments_json (foldl run_tool (world s) before) e →
  ∃ earlier later s',
    invoke_functions_from_response response s =
      (Returns (earlier ++
                function_call_output call_id
                  ("Error executing function call: " +:+ name +:+ ": " +:+
                   exc_str e)
                :: later),
       s') ∧
    length earlier = length (filter (λ rx, is_function_call rx = true) before).
Proof.
  intros Hsplit Hlookup Hraises.
  change ("Error executing function call: " +:+ name +:+ ": " +:+ exc_str e)
    with (failure_message name e).
  destruct (invoke_functions_split _ _ _ _ s Hsplit)
    as (earlier & s1 & _ & Hlen & Hworld & ->).
  rewrite <- Hworld in Hraises.
  destruct (invoke_try_block_raises i call_id name arguments_json target_tool e
              earlier s1 Hlookup Hraises) as (s2 & Hitem).
  rewrite (bind_returns _ _ _ _ _ Hitem).
  destruct (for_in_invoke_extends after
              (earlier ++ [function_call_output call_id (failure_message name e)]) s2)
    as (later & s' & ->).
  exists earlier, later, s'. by rewrite <- app_assoc.
Qed.

(** ** The order of tool calls *)

Lemma invoked_is_function_call rx : invoked rx = true → is_function_call rx = true.
Proof. by destruct rx. Qed.

Lemma invoked_function_call_items (items : list response_item) :
  filter (λ rx, invoked rx = true) (filter (λ rx, is_function_call rx = true) items) =
  filter (λ rx, invoked rx = true) items.
Proof.
  induction items as [|rx items IH]; [done|].
  rewrite !filter_cons. destruct (invoked rx) eqn:Hinv.
  - rewrite (decide_True (P := is_function_call rx = true))
      by by apply invoked_is_function_call.
    rewrite filter_cons, decide_True by done. rewrite decide_True by done.
    by rewrite IH.
  - rewrite (decide_False (P := false = true)) by done.
    case_decide; [|done]. rewrite filter_cons, decide_False; [done|].
    by rewrite Hinv.
Qed.

Lemma run_tool_function_call_items (items : list response_item) w :
  foldl run_tool w (filter (λ rx, is_function_call rx = true) items) =
  foldl run_tool w items.
Proof.
  revert w. induction items as [|rx items IH]; intros w; [done|].
  rewrite filter_cons. destruct rx; cbn -[lookup]; try apply IH.
Qed.

(** C7.  [invoke_functions_from_response] calls the tools one after the
    other in the order of the function calls in [response.output]: the calls
    it makes are exactly the requests with a registered name and arguments
    that parse, in request order; each call is entered and left before the
    next one is entered; and each tool runs in the world left by the one
    before it. *)
Theorem tools_run_in_request_order response s :
  ∃ results s',
    invoke_functions_from_response response s = (Returns results, s') ∧
    trace s' =
      trace s ++
      (filter (λ rx, invoked rx = true) (function_call_items response)
         ≫= λ rx, [tool_entered rx; tool_left rx]) ∧
    world s' = foldl run_tool (world s) (function_call_items response).
Proof.
  destruct (invoke_items_spec (output response) [] s)
    as (results & s' & Hrun & _ & _ & _ & Htrace & Hworld & _).
  exists results, s'. split; [exact Hrun|]. split.
  - unfold function_call_items. rewrite invoked_function_call_items. exact Htrace.
  - unfold function_call_items. by rewrite run_tool_function_call_items.
Qed.

(** ** The manual response loop *)

Lemma response_loop_unfold fuel s :
  response_loop (S fuel) s =
  match response_loop_body s with
  | (Returns Break, s') => (Returns (), s')
  | (Returns Continue, s') => response_loop fuel s'
  | (Raises e, s') => (Raises e, s')
  | (OutOfFuel, s') => (OutOfFuel, s')
  end.
Proof.
  cbn [response_loop]. rewrite bind_unfold.
  destruct (response_loop_body s) as [[[]| |] s']; reflexivity.
Qed.

(** How a pass ends, read off the endpoint's answer. *)
Lemma response_loop_body_cases s :
  (round_stops s = false ∧ ∃ s', response_loop_body s = (Returns Continue, s')) ∨
  (round_stops s = true ∧
   ((∃ s', response_loop_body s = (Returns Break, s')) ∨
    (∃ e s', response_loop_body s = (Raises e, s') ∧
       (responses_create (manual_request s) (world s)).1 = inl e))).
Proof.
  unfold round_stops.
  destruct (responses_create (manual_request s) (world s)) as [[e|response] w'] eqn:Hcreate.
  - right. split; [done|]. right. eexists e, _. split; [|done].
    by apply response_loop_body_raises.
  - destruct (response_loop_body_returns s response w' Hcreate)
      as (outs & prints & s' & Hbody & _).
    cbn. case_decide.
    + right. rewrite bool_decide_eq_true_2 by done. eauto.
    + left. rewrite bool_decide_eq_false_2 by done. eauto.
Qed.

Lemma response_loop_never_stopped :
  (∀ s, round_stops s = false) →
  ∀ fuel s, (response_loop fuel s).1 = OutOfFuel.
Proof.
  intros Hgreedy. induction fuel as [|fuel IH]; intros s; [done|].
  rewrite response_loop_unfold.
  destruct (response_loop_body_cases s) as [[_ [s' ->]]|[Hstop _]].
  - apply IH.
  - by rewrite Hgreedy in Hstop.
Qed.

Lemma response_loop_continued k fuel s sk :
  continued k s = Some sk →
  response_loop (k + fuel) s = response_loop fuel sk.
Proof.
  revert s. induction k as [|k IH]; intros s Hk; cbn in Hk.
  - by simplify_eq.
  - replace (S k + fuel)%nat with (S (k + fuel)) by lia.
    rewrite response_loop_unfold.
    destruct (response_loop_body s) as [[[]| |] s']; try done. by apply IH.
Qed.

Lemma response_loop_stops fuel s :
  round_stops s = true →
  (response_loop (S fuel) s).1 ≠ OutOfFuel.
Proof.
  intros Hstop. rewrite response_loop_unfold.
  destruct (response_loop_body_cases s)
    as [[Hgo _]|[_ [[s' ->]|(e & s' & -> & _)]]]; [congruence|done..].
Qed.

(** C1 (as the code has it).  The manual response loop has no round limit
    and no error of its own: run with any amount of fuel, it has stopped
    exactly when one of the passes made so far met an endpoint call that
    raised or a response without function calls, every pass before it having
    asked to continue; and whatever it raises was raised by the endpoint. *)
Theorem response_loop_stops_iff fuel s :
  ((response_loop fuel s).1 ≠ OutOfFuel ↔
   ∃ k sk, (k < fuel)%nat ∧ continued k s = Some sk ∧ round_stops sk = true) ∧
  (∀ e, (response_loop fuel s).1 = Raises e ↔
   ∃ k sk, (k < fuel)%nat ∧ continued k s = Some sk ∧
     (responses_create (manual_request sk) (world sk)).1 = inl e).
Proof.
  split.
  - split.
    + revert s. induction fuel as [|fuel IH]; intros s Hdone; [done|].
      rewrite response_loop_unfold in Hdone.
      destruct (response_loop_body_cases s)
        as [[_ [s' Hbody]]|[Hstop _]].
      * rewrite Hbody in Hdone. destruct (IH s' Hdone) as (k & sk & Hk & Hcont & Hstop).
        exists (S k), sk. split; [lia|]. split; [|done]. cbn. by rewrite Hbody.
      * exists 0%nat, s. split; [lia|]. done.
    + intros (k & sk & Hk & Hcont & Hstop).
      replace fuel with (k + S (fuel - k - 1))%nat by lia.
      rewrite (response_loop_continued _ _ _ _ Hcont).
      by apply response_loop_stops.
  - intros e. split.
    + revert s. induction fuel as [|fuel IH]; intros s Hraise; [done|].
      rewrite response_loop_unfold in Hraise.
      destruct (response_loop_body_cases s)
        as [[_ [s' Hbody]]|[_ [[s' Hbody]|(e' & s' & Hbody & Hcreate)]]];
        rewrite Hbody in Hraise; cbn in Hraise.
      * destruct (IH s' Hraise) as (k & sk & Hk & Hcont & Hcreate).
        exists (S k), sk. split; [lia|]. split; [|done]. cbn. by rewrite Hbody.
      * done.
      * simplify_eq. exists 0%nat, s. split; [lia|]. done.
    + intros (k & sk & Hk & Hcont & Hcreate).
      replace fuel with (k + S (fuel - k - 1))%nat by lia.
      rewrite (response_loop_continued _ _ _ _ Hcont), response_loop_unfold.
      destruct (responses_create (manual_request sk) (world sk))
        as [[e'|response] w'] eqn:Hrc; cbn in Hcreate; simplify_eq.
      by rewrite (response_loop_body_raises _ _ _ Hrc).
Qed.




(** C8.  When the endpoint call of a pass raises, the manual loop does not
    catch it: the pass, the loop at any fuel, the loop entered any number of
    continuing passes earlier, and the enclosing turn over the user messages
    all end by raising that same error, with the conversation as it was when
    the call was made; later user messages are not processed. *)
Theorem endpoint_error_propagates s e w' :
  responses_create (manual_request s) (world s) = (inl e, w') →
  ∃ s',
    response_loop_body s = (Raises e, s') ∧
    conversation s' = conversation s ∧
    (∀ fuel, response_loop (S fuel) s = (Raises e, s')) ∧
    (∀ fuel k s0, continued k s0 = Some s →
       response_loop (k + S fuel) s0 = (Raises e, s')) ∧
    (∀ fuel message rest s0, begin_user_turn message s0 = (Returns (), s) →
       user_turns (S fuel) (message :: rest) s0 = (Raises e, s')).
Proof.
  intros Hcreate.
  pose proof (response_loop_body_raises _ _ _ Hcreate) as Hbody.
  match type of Hbody with _ = (_, ?s1) => set (s' := s1) in * end.
  exists s'. split; [exact Hbody|]. split; [done|].
  assert (∀ fuel, response_loop (S fuel) s = (Raises e, s')) as Hloop.
  { intros fuel. by rewrite response_loop_unfold, Hbody. }
  split; [exact Hloop|]. split.
  - intros fuel k s0 Hcont.
    by rewrite (response_loop_continued _ _ _ _ Hcont), Hloop.
  - intros fuel message rest s0 Hbegin.
    unfold user_turns. cbn [for_in]. unfold user_turn.
    rewrite bind_unfold, (bind_returns _ _ _ _ _ Hbegin), Hloop. done.
Qed.

(** ** The conversation only grows *)

Lemma invoke_keeps_conversation response s :
  conversation (invoke_functions_from_response response s).2 = conversation s.
Proof.
  destruct (invoke_items_spec (output response) [] s)
    as (results & s' & Hrun & _ & Hconv & _).
  unfold invoke_functions_from_response. by rewrite Hrun.
Qed.

Lemma response_loop_body_prefix s :
  conversation s `prefix_of` conversation (response_loop_body s).2.
Proof.
  destruct (responses_create (manual_request s) (world s))
    as [[e|response] w'] eqn:Hcreate.
  - by rewrite (response_loop_body_raises _ _ _ Hcreate).
  - destruct (response_loop_body_returns s response w' Hcreate)
      as (outs & prints & s' & Hbody & _ & _ & Hconv & _).
    rewrite Hbody. cbn. rewrite Hconv. by apply prefix_app_r.
Qed.

Lemma response_loop_prefix fuel s :
  conversation s `prefix_of` conversation (response_loop fuel s).2.
Proof.
  revert s. induction fuel as [|fuel IH]; intros s; [done|].
  rewrite response_loop_unfold.
  pose proof (response_loop_body_prefix s) as Hbody.
  destruct (response_loop_body s) as [[[]| |] s']; cbn in *; try done.
  by etrans.
Qed.

Lemma user_turn_prefix fuel message s :
  conversation s `prefix_of` conversation (user_turn fuel message s).2.
Proof.
  unfold user_turn, begin_user_turn. run.
  match goal with
  | |- context [response_loop fuel ?s1] =>
      pose proof (response_loop_prefix fuel s1) as Hloop;
      destruct (response_loop fuel s1) as [[[]| |] s']
  end; cbn in *; (etrans; [|exact Hloop]); by apply prefix_app_r.
Qed.

Lemma user_turns_prefix fuel (user_messages : list string) s :
  conversation s `prefix_of` conversation (user_turns fuel user_messages s).2.
Proof.
  unfold user_turns. generalize tt.
  revert s. induction user_messages as [|message rest IH]; intros s u; [done|].
  cbn [for_in]. rewrite bind_unfold.
  pose proof (user_turn_prefix fuel message s) as Hturn.
  destruct (user_turn fuel message s) as [[[]| |] s']; cbn in *; try done.
  etrans; [exact Hturn|]. apply IH.
Qed.

Lemma previous_response_loop_keeps_conversation fuel response s :
  conversation (previous_response_loop fuel response s).2 = conversation s.
Proof.
  revert response s. induction fuel as [|fuel IH]; intros response s; [done|].
  cbn [previous_response_loop]. rewrite bind_unfold.
  pose proof (invoke_keeps_conversation response s) as Hinv.
  destruct (invoke_functions_from_response response s) as [[results| |] s1];
    cbn in Hinv; try done.
  case_decide; run; [done|].
  match goal with
  | |- context [responses_create ?req ?w] =>
      destruct (responses_create req w) as [[e|response'] w']
  end; run; [done|].
  rewrite IH. done.
Qed.

(** C9.  Every operation of the notebook on [conversation] only appends: the
    conversation before [invoke_functions_from_response], before a pass of the
    manual loop, before the loop, before a user turn and before the turns
    over all user messages is a prefix of the conversation after it, so an
    item, once appended, keeps its place; the loop over
    [previous_response_id] leaves the conversation as it is. *)
Theorem conversation_is_append_only fuel s :
  (∀ response,
     conversation s `prefix_of`
       conversation (invoke_functions_from_response response s).2) ∧
  conversation s `prefix_of` conversation (response_loop_body s).2 ∧
  conversation s `prefix_of` conversation (response_loop fuel s).2 ∧
  (∀ message,
     conversation s `prefix_of` conversation (user_turn fuel message s).2) ∧
  (∀ user_messages,
     conversation s `prefix_of` conversation (user_turns fuel user_messages s).2 ∧
     ∀ i item, conversation s !! i = Some item →
       conversation (user_turns fuel user_messages s).2 !! i = Some item) ∧
  (∀ response,
     conversation s `prefix_of`
       conversation (previous_response_loop fuel response s).2).
Proof.
  split; [|split; [|split; [|split; [|split]]]].
  - intros response. by rewrite invoke_keeps_conversation.
  - apply response_loop_body_prefix.
  - apply response_loop_prefix.
  - intros message. apply user_turn_prefix.
  - intros user_messages.
    pose proof (user_turns_prefix fuel user_messages s) as Hprefix.
    split; [exact Hprefix|].
    intros i item Hi. by eapply prefix_lookup_Some.
  - intros response. by rewrite previous_response_loop_keeps_conversation.
Qed.

(** ** The order of a round *)

Lemma interleave_elem_of_inv (cs os : list conversation_item) x :
  x ∈ interleave cs os → x ∈ cs ∨ x ∈ os.
Proof.
  revert os. induction cs as [|c cs IH]; intros [|o os]; try by intros ?%elem_of_nil.
  rewrite interleave_cons, !elem_of_cons.
  intros [->|[->|Hx]]; auto. destruct (IH os Hx); auto.
Qed.

Lemma answers_is_tool_result rx out :
  answers rx out = true → is_tool_result out = true ∧ is_reasoning_step out = false.
Proof. by destruct rx, out. Qed.

Lemma round_tail_has_no_reasoning response
    (function_outputs : list conversation_item) x :
  Forall2 (λ rx out, answers rx out = true)
    (function_call_items response) function_outputs →
  x ∈ interleave (to_dict <$> function_call_items response) function_outputs ++
      (to_dict <$> message_items response) →
  is_reasoning_step x = false.
Proof.
  intros Hpairs [[Hx|Hx]%interleave_elem_of_inv|Hx]%elem_of_app.
  - apply list_elem_of_fmap in Hx as (rx & -> & Hrx).
    apply list_elem_of_filter in Hrx as [Hcall _]. by destruct rx.
  - apply list_elem_of_lookup in Hx as [i Hi].
    destruct (Forall2_lookup_r _ _ _ _ _ Hpairs Hi) as (rx & _ & Hans).
    by apply answers_is_tool_result in Hans as [_ ?].
  - apply list_elem_of_fmap in Hx as (rx & -> & Hrx).
    apply list_elem_of_filter in Hrx as [Hmsg _]. by destruct rx.
Qed.

(** C5 (as the code has it).  A pass of the manual loop that got a response
    appends to the conversation, in this order: the reasoning items of
    [response.output]; then, for each function call in the order of the
    response, the request immediately followed by the output that carries
    its call_id, so that with several calls requests and outputs alternate;
    then the messages.  Every reasoning item appended in the pass stands
    before every function-call output appended in it. *)
Theorem round_appends_in_order s response w' :
  responses_create (manual_request s) (world s) = (inr response, w') →
  ∃ function_outputs appended c s',
    response_loop_body s = (Returns c, s') ∧
    conversation s' = conversation s ++ appended ∧
    appended =
      (to_dict <$> filter (λ rx, is_reasoning rx = true) (output response)) ++
      interleave
        (to_dict <$> filter (λ rx, is_function_call rx = true) (output response))
        function_outputs ++
      (to_dict <$> filter (λ rx, is_message rx = true) (output response)) ∧
    Forall2 (λ rx out, answers rx out = true)
      (function_call_items response) function_outputs ∧
    (∀ i rx, function_call_items response !! i = Some rx →
       ∃ out, answers rx out = true ∧
         appended !! (length (reasoning_items response) + 2 * i)%nat =
           Some (to_dict rx) ∧
         appended !! (length (reasoning_items response) + 2 * i + 1)%nat =
           Some out) ∧
    (∀ j k step result,
       appended !! j = Some step → is_reasoning_step step = true →
       appended !! k = Some result → is_tool_result result = true →
       (j < k)%nat).
Proof.
  intros Hcreate.
  destruct (response_loop_body_returns s response w' Hcreate)
    as (outs & prints & s' & Hbody & Hpairs & _ & Hconv & _).
  eexists outs, _, _, s'. split; [exact Hbody|]. split; [exact Hconv|].
  split; [reflexivity|]. split; [exact Hpairs|]. split.
  - intros i rx Hi.
    destruct (Forall2_lookup_l _ _ _ _ _ Hpairs Hi) as (out & Hout & Hans).
    exists out. split; [exact Hans|].
    destruct (interleave_lookup (to_dict <$> function_call_items response) outs
                i (to_dict rx) out) as [H1 H2];
      [by rewrite list_lookup_fmap, Hi|done|].
    assert (length (to_dict <$> reasoning_items response) =
            length (reasoning_items response)) as Hlen by apply length_fmap.
    split.
    + rewrite lookup_app_r by lia. rewrite Hlen.
      replace (length (reasoning_items response) + 2 * i -
               length (reasoning_items response))%nat with (2 * i)%nat by lia.
      by apply lookup_app_l_Some.
    + rewrite lookup_app_r by lia. rewrite Hlen.
      replace (length (reasoning_items response) + 2 * i + 1 -
               length (reasoning_items response))%nat with (2 * i + 1)%nat by lia.
      by apply lookup_app_l_Some.
  - intros j k step result Hj Hstep Hk Hresult.
    destruct (decide (j < length (to_dict <$> reasoning_items response))%nat)
      as [Hjlt|Hjge].
    + destruct (decide (k < length (to_dict <$> reasoning_items response))%nat)
        as [Hklt|Hkge]; [|lia].
      rewrite lookup_app_l in Hk by done.
      apply list_elem_of_lookup_2, list_elem_of_fmap in Hk as (rx & -> & _).
      done.
    + rewrite lookup_app_r in Hj by lia.
      apply list_elem_of_lookup_2 in Hj.
      by rewrite (round_tail_has_no_reasoning _ _ _ Hpairs Hj) in Hstep.
Qed.

(** C10.  A response that holds function calls keeps the manual loop going
    whether or not it also holds messages: the pass appends the messages of
    the response to the conversation, after the requests and their outputs,
    asks for another round, and the loop goes on from the state it left.  The
    pass ends the loop exactly when the response holds no function call. *)
Theorem messages_do_not_end_the_loop s response w' :
  responses_create (manual_request s) (world s) = (inr response, w') →
  ∃ earlier c s',
    response_loop_body s = (Returns c, s') ∧
    conversation s' =
      conversation s ++ earlier ++ (to_dict <$> message_items response) ∧
    (c = Break ↔ function_call_items response = []) ∧
    (function_call_items response ≠ [] →
     c = Continue ∧ ∀ fuel, response_loop (S fuel) s = response_loop fuel s').
Proof.
  intros Hcreate.
  destruct (response_loop_body_returns s response w' Hcreate)
    as (outs & prints & s' & Hbody & _ & _ & Hconv & _).
  exists ((to_dict <$> reasoning_items response) ++
          interleave (to_dict <$> function_call_items response) outs).
  eexists _, s'. split; [exact Hbody|]. split.
  { rewrite Hconv. by rewrite <- app_assoc. }
  split.
  - case_decide; split; done.
  - intros Hne. rewrite decide_False in Hbody |- * by done.
    split; [done|]. intros fuel. by rewrite response_loop_unfold, Hbody.
Qed.

(** ** The loop over [previous_response_id] and the inline cell *)

Lemma previous_response_loop_never_stopped :
  (∀ req w, ∃ response w',
     responses_create req w = (inr response, w') ∧
     function_call_items response ≠ []) →
  ∀ fuel response s,
    function_call_items response ≠ [] →
    (previous_response_loop fuel response s).1 = OutOfFuel.
Proof.
  intros Hgreedy. induction fuel as [|fuel IH]; intros response s Hne; [done|].
  destruct (invoke_items_spec (output response) [] s)
    as (results & s1 & Hrun & Hpairs & _).
  fold (function_call_items response) in Hpairs.
  cbn [previous_response_loop]. unfold invoke_functions_from_response.
  rewrite (bind_returns _ _ _ _ _ Hrun). cbn [app].
  rewrite decide_False.
  - run.
    match goal with
    | |- context [responses_create ?req ?w] =>
        destruct (Hgreedy req w) as (response' & w' & -> & Hne')
    end.
    run. by apply IH.
  - apply Forall2_length in Hpairs. rewrite <- Hpairs.
    by destruct (function_call_items response).
Qed.

Lemma inline_cell_raises_on_unregistered
    response i call_id name arguments_json after s :
  function_call_items response =
    ResponseFunctionToolCall i call_id name arguments_json :: after →
  tool_mapping !! name = None →
  inline_function_calls response s =
  (Raises (Exception "ValueError" ("No tool found for function call: " +:+ name)), s).
Proof.
  intros Hcalls Hlookup. unfold inline_function_calls. rewrite Hcalls.
  cbn [for_in]. unfold inline_function_call. rewrite Hlookup. reflexivity.
Qed.

(** ** Requests and outputs stay paired *)

Lemma well_paired_app (a b : list conversation_item) :
  well_paired a = true → well_paired (a ++ b) = well_paired b.
Proof.
  assert (∀ n (a : list conversation_item),
            (length a ≤ n)%nat → well_paired a = true →
            well_paired (a ++ b) = well_paired b) as Hgen.
  { induction n as [|n IH]; intros [|x a'] Hlen Hwp; cbn in Hlen; try done; try lia.
    destruct x as [content|c o|[i sm|i c nm ar|i t|i]]; cbn in Hwp |- *; try done;
      try (apply IH; [lia|done]).
    destruct a' as [|[content'|c' o'|rx'] a'']; try done.
    cbn in Hwp |- *. apply andb_prop in Hwp as [Hc Hrest].
    rewrite Hc. cbn. apply IH; [cbn in Hlen; lia|done]. }
  intros Hwp. by eapply Hgen.
Qed.

Lemma well_paired_app_true (a b : list conversation_item) :
  well_paired a = true → well_paired b = true → well_paired (a ++ b) = true.
Proof. intros Ha Hb. by rewrite well_paired_app. Qed.

Lemma well_paired_plain (items : list response_item) :
  Forall (λ rx, is_function_call rx = false) items →
  well_paired (to_dict <$> items) = true.
Proof.
  induction 1 as [|rx items Hrx _ IH]; [done|].
  destruct rx; cbn in *; done.
Qed.

Lemma well_paired_interleave (requests : list response_item)
    (outs : list conversation_item) :
  Forall2 (λ rx out, answers rx out = true) requests outs →
  well_paired (interleave (to_dict <$> requests) outs) = true.
Proof.
  induction 1 as [|rx out requests outs Hans _ IH]; [done|].
  rewrite fmap_cons, interleave_cons.
  destruct rx, out; cbn in Hans; try done.
  cbn -[interleave]. rewrite Hans. exact IH.
Qed.

Lemma filter_not_function_call (P : response_item → bool) (items : list response_item) :
  (∀ rx, P rx = true → is_function_call rx = false) →
  Forall (λ rx, is_function_call rx = false) (filter (λ rx, P rx = true) items).
Proof.
  intros HP. apply Forall_forall. intros rx [Hrx _]%list_elem_of_filter. by apply HP.
Qed.

Lemma round_keeps_pairing response (outs : list conversation_item) :
  Forall2 (λ rx out, answers rx out = true) (function_call_items response) outs →
  well_paired
    ((to_dict <$> reasoning_items response) ++
     interleave (to_dict <$> function_call_items response) outs ++
     (to_dict <$> message_items response)) = true.
Proof.
  intros Hpairs. repeat apply well_paired_app_true.
  - apply well_paired_plain, filter_not_function_call. by intros [].
  - by apply well_paired_interleave.
  - apply well_paired_plain, filter_not_function_call. by intros [].
Qed.

(** A relation between the state before and after that holds of every pass
    and of the start of a user turn holds of the loop and of all turns. *)
Lemma response_loop_rel (R : notebook (W:=W) → notebook (W:=W) → Prop) :
  (∀ s, R s s) → (∀ a b c, R a b → R b c → R a c) →
  (∀ s, R s (response_loop_body s).2) →
  ∀ fuel s, R s (response_loop fuel s).2.
Proof.
  intros Hrefl Htrans Hbody. induction fuel as [|fuel IH]; intros s; [apply Hrefl|].
  rewrite response_loop_unfold. specialize (Hbody s).
  destruct (response_loop_body s) as [[[]| |] s']; cbn in *; try done.
  by eapply Htrans.
Qed.

Lemma user_turns_rel (R : notebook (W:=W) → notebook (W:=W) → Prop) :
  (∀ s, R s s) → (∀ a b c, R a b → R b c → R a c) →
  (∀ s, R s (response_loop_body s).2) →
  (∀ message s, R s (begin_user_turn message s).2) →
  ∀ fuel (user_messages : list string) s,
    R s (user_turns fuel user_messages s).2.
Proof.
  intros Hrefl Htrans Hbody Hbegin fuel user_messages.
  unfold user_turns. generalize tt.
  induction user_messages as [|message rest IH]; intros u s; [apply Hrefl|].
  cbn [for_in]. rewrite bind_unfold.
  assert (R s (user_turn fuel message s).2) as Hturn.
  { unfold user_turn. rewrite bind_unfold. specialize (Hbegin message s).
    destruct (begin_user_turn message s) as [[[]| |] s1]; cbn in *; try done.
    eapply Htrans; [exact Hbegin|]. by apply response_loop_rel. }
  destruct (user_turn fuel message s) as [[[]| |] s']; cbn in *; try done.
  eapply Htrans; [exact Hturn|]. apply IH.
Qed.

Lemma tool_events_send_nothing (items : list response_item) :
  Forall (λ ev, sends_well_paired ev = true) (tool_events items).
Proof.
  unfold tool_events. induction (filter _ items) as [|rx l IH]; [constructor|].
  cbn. by repeat constructor.
Qed.

Lemma response_loop_body_keeps_pairing s :
  well_paired (conversation s) = true ∧
  Forall (λ ev, sends_well_paired ev = true) (trace s) →
  well_paired (conversation (response_loop_body s).2) = true ∧
  Forall (λ ev, sends_well_paired ev = true) (trace (response_loop_body s).2).
Proof.
  intros [Hconv Htrace].
  destruct (responses_create (manual_request s) (world s))
    as [[e|response] w'] eqn:Hcreate.
  - rewrite (response_loop_body_raises _ _ _ Hcreate). cbn. split; [done|].
    apply Forall_app. split; [done|]. by repeat constructor.
  - destruct (response_loop_body_returns s response w' Hcreate)
      as (outs & prints & s' & Hbody & Hpairs & _ & Hc' & Ht' & _).
    rewrite Hbody. cbn. rewrite Hc', Ht'. split.
    + apply well_paired_app_true; [done|]. by apply round_keeps_pairing.
    + apply Forall_app. split; [done|]. constructor; [done|].
      destruct (nonempty _); [apply tool_events_send_nothing|constructor].
Qed.

(** X1.  The manual loop keeps the conversation well paired: started from a
    conversation in which every function call is immediately followed by the
    output under its call_id, the turns over any user messages leave such a
    conversation, and every input they send to the endpoint is such a
    conversation, with no request left unanswered. *)
Theorem manual_loop_keeps_pairing fuel (user_messages : list string) s :
  well_paired (conversation s) = true →
  Forall (λ ev, sends_well_paired ev = true) (trace s) →
  well_paired (conversation (user_turns fuel user_messages s).2) = true ∧
  Forall (λ ev, sends_well_paired ev = true)
    (trace (user_turns fuel user_messages s).2).
Proof.
  intros Hconv Htrace.
  apply (user_turns_rel
           (λ a b, well_paired (conversation a) = true ∧
                   Forall (λ ev, sends_well_paired ev = true) (trace a) →
                   well_paired (conversation b) = true ∧
                   Forall (λ ev, sends_well_paired ev = true) (trace b)));
    [done|by intros a b c Hab Hbc Ha; apply Hbc, Hab
    |apply response_loop_body_keeps_pairing| |done].
  intros message s0 [Hc Ht]. unfold begin_user_turn. run. split; [|done].
  by apply well_paired_app_true.
Qed.

(** ** What the manual loop sends *)

Lemma chain_app low sent1 mid sent2 high :
  chain low sent1 mid → chain mid sent2 high → chain low (sent1 ++ sent2) high.
Proof.
  revert low. induction sent1 as [|items sent1 IH]; intros low; cbn.
  - intros Hlow. destruct sent2 as [|items2 sent2]; cbn.
    + intros ?. by etrans.
    + intros [? ?]. split; [by etrans|done].
  - intros [? ?] ?. split; [done|]. by apply IH.
Qed.

Lemma sent_inputs_tool_events (items : list response_item) :
  sent_inputs (tool_events items) = [] ∧
  Forall (λ ev, stateless_call ev = true) (tool_events items).
Proof.
  unfold tool_events. induction (filter _ items) as [|rx l [IH1 IH2]]; [done|].
  cbn. split; [exact IH1|]. by repeat constructor.
Qed.

(** X2.  Every endpoint call made during the turns over the user messages is
    stateless: it passes no [previous_response_id] and sends a list of items.
    The lists sent form a chain: the first extends the conversation the turns
    started from, each later one extends the one sent before it, and the
    final conversation extends the last.  So whatever was sent once, the
    reasoning items among it, is sent again unchanged and in place in every
    later call. *)
Theorem manual_loop_resubmits_conversation fuel (user_messages : list string) s :
  ∃ new,
    trace (user_turns fuel user_messages s).2 = trace s ++ new ∧
    Forall (λ ev, stateless_call ev = true) new ∧
    chain (conversation s) (sent_inputs new)
      (conversation (user_turns fuel user_messages s).2).
Proof.
  apply (user_turns_rel
           (λ a b, ∃ new, trace b = trace a ++ new ∧
                     Forall (λ ev, stateless_call ev = true) new ∧
                     chain (conversation a) (sent_inputs new) (conversation b))).
  - intros a. exists []. rewrite app_nil_r.
    split; [done|]. split; [by apply Forall_nil|]. cbn. reflexivity.
  - intros a b c (n1 & Ht1 & Hs1 & Hc1) (n2 & Ht2 & Hs2 & Hc2).
    exists (n1 ++ n2). rewrite Ht2, Ht1, <- app_assoc. split; [done|].
    split; [by apply Forall_app|].
    unfold sent_inputs. rewrite omap_app. by eapply chain_app.
  - intros a.
    destruct (responses_create (manual_request a) (world a))
      as [[e|response] w'] eqn:Hcreate.
    + rewrite (response_loop_body_raises _ _ _ Hcreate). cbn.
      exists [endpoint_called (manual_request a)]. split; [done|].
      split; [by apply Forall_singleton|]. cbn. done.
    + destruct (response_loop_body_returns a response w' Hcreate)
        as (outs & prints & s' & Hbody & _ & _ & Hc' & Ht' & _).
      rewrite Hbody. cbn. eexists. split; [exact Ht'|].
      destruct (sent_inputs_tool_events (output response)) as [Hnone Hstateless].
      split.
      * constructor; [done|]. by destruct (nonempty _).
      * assert (∀ l, sent_inputs (endpoint_called (manual_request a) :: l) =
                     conversation a :: sent_inputs l) as -> by done.
        assert (sent_inputs (if nonempty (function_call_items response)
                             then tool_events (output response) else []) = [])
          as -> by by destruct (nonempty _).
        cbn. split; [done|]. rewrite Hc'. by apply prefix_app_r.
  - intros message a. unfold begin_user_turn. run.
    exists []. rewrite app_nil_r.
    split; [done|]. split; [by apply Forall_nil|]. by apply prefix_app_r.
Qed.

(** ** The user messages of a conversation *)

Lemma filter_none {A} (P : A → Prop) `{!∀ x, Decision (P x)} (l : list A) :
  (∀ x, x ∈ l → ¬ P x) → filter P l = [].
Proof.
  induction l as [|x l IH]; intros Hnone; [done|].
  rewrite filter_cons, decide_False by (apply Hnone; by left).
  apply IH. intros y Hy. apply Hnone. by right.
Qed.

Lemma round_appends_no_user_message response (outs : list conversation_item) :
  Forall2 (λ rx out, answers rx out = true) (function_call_items response) outs →
  filter (λ x, is_user_message x = true)
    ((to_dict <$> reasoning_items response) ++
     interleave (to_dict <$> function_call_items response) outs ++
     (to_dict <$> message_items response)) = [].
Proof.
  intros Hpairs. apply filter_none. intros x Hx Huser.
  destruct x as [content|c o|rx]; try done.
  apply elem_of_app in Hx as [Hx|Hx].
  - by apply list_elem_of_fmap in Hx as (rx & ? & _).
  - apply elem_of_app in Hx as [Hx|Hx].
    + apply interleave_elem_of_inv in Hx as [Hx|Hx].
      * by apply list_elem_of_fmap in Hx as (rx & ? & _).
      * apply list_elem_of_lookup in Hx as [i Hi].
        destruct (Forall2_lookup_r _ _ _ _ _ Hpairs Hi) as (rx & _ & Hans).
        by destruct rx.
    + by apply list_elem_of_fmap in Hx as (rx & ? & _).
Qed.

Lemma response_loop_keeps_user_messages fuel s :
  filter (λ x, is_user_message x = true) (conversation (response_loop fuel s).2) =
  filter (λ x, is_user_message x = true) (conversation s).
Proof.
  apply (response_loop_rel
           (λ a b, filter (λ x, is_user_message x = true) (conversation b) =
                   filter (λ x, is_user_message x = true) (conversation a)));
    [done|by intros a b c -> ->|].
  intros a.
  destruct (responses_create (manual_request a) (world a))
    as [[e|response] w'] eqn:Hcreate.
  - by rewrite (response_loop_body_raises _ _ _ Hcreate).
  - destruct (response_loop_body_returns a response w' Hcreate)
      as (outs & prints & s' & Hbody & Hpairs & _ & Hc' & _).
    rewrite Hbody. cbn. rewrite Hc', filter_app.
    by rewrite round_appends_no_user_message, app_nil_r.
Qed.

(** X3.  The turns over the user messages record the messages they reach, in
    order, as the only user messages they add: nothing the endpoint or a
    tool returns enters the conversation as a user message.  They reach a
    prefix of the given messages, and all of them when they return. *)
Theorem user_messages_are_recorded fuel (user_messages : list string) s :
  ∃ reached,
    reached `prefix_of` user_messages ∧
    filter (λ x, is_user_message x = true)
      (conversation (user_turns fuel user_messages s).2) =
    filter (λ x, is_user_message x = true) (conversation s) ++
    (user_message <$> reached) ∧
    ((user_turns fuel user_messages s).1 = Returns () → reached = user_messages).
Proof.
  unfold user_turns. generalize tt. revert s.
  induction user_messages as [|message rest IH]; intros s [].
  - exists []. by rewrite app_nil_r.
  - cbn [for_in]. rewrite bind_unfold.
    assert (filter (λ x, is_user_message x = true)
              (conversation (user_turn fuel message s).2) =
            filter (λ x, is_user_message x = true) (conversation s) ++
            [user_message message]) as Hturn.
    { unfold user_turn, begin_user_turn. run.
      match goal with
      | |- context [response_loop fuel ?s1] =>
          pose proof (response_loop_keeps_user_messages fuel s1) as Hloop;
          destruct (response_loop fuel s1) as [[[]| |] s']
      end; cbn in *; by rewrite Hloop, filter_app. }
    destruct (user_turn fuel message s) as [[[]| |] s1]; cbn in Hturn |- *.
    + destruct (IH s1 ()) as (reached & Hprefix & Hfilter & Hall).
      exists (message :: reached). split; [by apply prefix_cons|].
      split.
      * rewrite Hfilter, Hturn, <- app_assoc. done.
      * intros Hret. by rewrite Hall.
    + exists [message]. split; [apply prefix_cons, prefix_nil|]. done.
    + exists [message]. split; [apply prefix_cons, prefix_nil|]. done.
Qed.

(** ** Token accounting *)

(** X4.  [total_tokens_used] counts the responses of the orchestrated model and
    nothing else: a pass of the manual loop adds exactly the
    [usage.total_tokens] of the response it got, whatever its tools did in the
    world, and nothing when the endpoint call raised; the helper that runs
    the tools leaves the count, and the conversation, as they were. *)
Theorem tokens_count_responses_only s :
  total_tokens_used (response_loop_body s).2 =
    (total_tokens_used s +
     match (responses_create (manual_request s) (world s)).1 with
     | inr response => total_tokens response
     | inl _ => 0
     end)%Z ∧
  ∀ response,
    total_tokens_used (invoke_functions_from_response response s).2 =
      total_tokens_used s ∧
    conversation (invoke_functions_from_response response s).2 = conversation s.
Proof.
  split.
  - destruct (responses_create (manual_request s) (world s))
      as [[e|response] w'] eqn:Hcreate.
    + rewrite (response_loop_body_raises _ _ _ Hcreate). cbn. lia.
    + destruct (response_loop_body_returns s response w' Hcreate)
        as (outs & prints & s' & Hbody & _ & _ & _ & _ & _ & Htok & _).
      by rewrite Hbody.
  - intros response.
    destruct (invoke_items_spec (output response) [] s)
      as (results & s' & Hrun & _ & Hconv & Htok & _).
    unfold invoke_functions_from_response. by rewrite Hrun.
Qed.

(** ** The inline cell against the helper *)

Lemma inline_item_agrees rx acc s t acc1 s1 :
  is_function_call rx = true →
  world s = world t → trace s = trace t →
  inline_function_call rx acc s = (Returns acc1, s1) →
  ∃ t1, invoke_response_item rx acc t = (Returns acc1, t1) ∧
        world s1 = world t1 ∧ trace s1 = trace t1.
Proof.
  destruct rx as [| i call_id name arguments_json | |]; try done.
  intros _ Hworld Htrace. unfold inline_function_call, invoke_response_item.
  destruct (tool_mapping !! name) as [target_tool|]; [|done].
  destruct (json_loads arguments_json) as [e|arguments]; run; [done|].
  rewrite <- Hworld, <- Htrace.
  destruct (target_tool arguments (world s)) as [[e|tool_output] w']; run; [done|].
  intros [= <- <-]. eexists. split; [reflexivity|]. done.
Qed.

Lemma inline_items_agree (items : list response_item) acc s t results s' :
  world s = world t → trace s = trace t →
  for_in (filter (λ rx, is_function_call rx = true) items)
    inline_function_call acc s = (Returns results, s') →
  ∃ t', for_in items invoke_response_item acc t = (Returns results, t') ∧
        world s' = world t' ∧ trace s' = trace t'.
Proof.
  revert acc s t. induction items as [|rx items IH]; intros acc s t Hworld Htrace.
  - cbn. intros [= <- <-]. by exists t.
  - rewrite filter_cons. destruct (is_function_call rx) eqn:Hcall.
    + rewrite decide_True by done. cbn [for_in]. rewrite !bind_unfold.
      destruct (inline_function_call rx acc s) as [[acc1| |] s1] eqn:Hitem; try done.
      destruct (inline_item_agrees rx acc s t acc1 s1 Hcall Hworld Htrace Hitem)
        as (t1 & -> & Hw1 & Ht1).
      by apply IH.
    + rewrite decide_False by done. cbn [for_in]. rewrite bind_unfold.
      destruct (invoke_response_item_spec rx acc t)
        as (outs & t1 & Hrun & Houts & _ & _ & Ht1 & Hw1 & _).
      rewrite Hrun.
      assert (outs = [] ∧ trace t1 = trace t ∧ world t1 = world t) as (-> & Ht & Hw).
      { destruct rx; try done; cbn in *; by rewrite ?app_nil_r in Ht1. }
      rewrite app_nil_r. apply IH; congruence.
Qed.

(** X5.  Whenever the inline function-call cell returns, the helper
    [invoke_functions_from_response], run on the same response from the same
    state, returns the same list of function-call outputs, having made the
    same tool calls in the same order and left the same world: the helper
    adds the handling of failures and its prints, and changes nothing else. *)
Theorem helper_agrees_with_inline_cell response s results s' :
  inline_function_calls response s = (Returns results, s') →
  ∃ t',
    invoke_functions_from_response response s = (Returns results, t') ∧
    world t' = world s' ∧ trace t' = trace s'.
Proof.
  intros Hinline.
  destruct (inline_items_agree (output response) [] s s results s' eq_refl eq_refl Hinline)
    as (t' & Hrun & Hw & Ht).
  by exists t'.
Qed.

(** X6.  The inline cell has no [try]: it stops at the first function call that
    cannot be served, after the tools of the calls before it have run.  An
    unknown name raises [ValueError] before anything is parsed or called;
    arguments that do not parse, or a tool that raises, raise that very
    exception to the caller of the cell. *)
Theorem inline_cell_stops_at_first_failure
    response before i call_id name arguments_json after s earlier s1 :
  function_call_items response =
    before ++ ResponseFunctionToolCall i call_id name arguments_json :: after →
  for_in before inline_function_call [] s = (Returns earlier, s1) →
  (tool_mapping !! name = None →
   inline_function_calls response s =
     (Raises (Exception "ValueError" ("No tool found for function call: " +:+ name)),
      s1)) ∧
  (∀ target_tool e,
     tool_mapping !! name = Some target_tool →
     try_block_raises target_tool arguments_json (world s1) e →
     ∃ s2, inline_function_calls response s = (Raises e, s2) ∧
           conversation s2 = conversation s1 ∧ stdout s2 = stdout s1).
Proof.
  intros Hcalls Hbefore. unfold inline_function_calls.
  rewrite Hcalls, for_in_app, (bind_returns _ _ _ _ _ Hbefore).
  cbn [for_in]. rewrite bind_unfold. unfold inline_function_call.
  split.
  - intros ->. reflexivity.
  - intros target_tool e -> Hraises. unfold try_block_raises in Hraises.
    destruct (json_loads arguments_json) as [e'|arguments]; run.
    + subst e'. eauto.
    + destruct (target_tool arguments (world s1)) as [[e'|tool_output] w'];
        cbn in Hraises; simplify_eq; run. eauto.
Qed.

(** ** A round of the loop over [previous_response_id] *)

(** X7.  When the response holds function calls, the loop over
    [previous_response_id] sends as its next input the outputs of those calls
    and nothing else, under the id of the response it has just handled.  If
    that endpoint call raises, the loop raises the same error; otherwise it
    goes on with the response it got. *)
Theorem previous_response_loop_chains fuel response s :
  function_call_items response ≠ [] →
  ∃ results s1,
    invoke_functions_from_response response s = (Returns results, s1) ∧
    length results = length (function_call_items response) ∧
    Forall (λ item, is_tool_result item = true) results ∧
    (∀ e w',
       responses_create
         {| input := input_items results;
            previous_response_id := Some (response_id response) |} (world s1) =
         (inl e, w') →
       ∃ s2, previous_response_loop (S fuel) response s = (Raises e, s2) ∧
             world s2 = w') ∧
    (∀ response' w',
       responses_create
         {| input := input_items results;
            previous_response_id := Some (response_id response) |} (world s1) =
         (inr response', w') →
       ∃ s2, previous_response_loop (S fuel) response s =
               previous_response_loop fuel response' s2 ∧
             world s2 = w' ∧
             trace s2 =
               trace s1 ++
               [endpoint_called
                  {| input := input_items results;
                     previous_response_id := Some (response_id response) |}]).
Proof.
  intros Hne.
  destruct (invoke_items_spec (output response) [] s)
    as (results & s1 & Hrun & Hpairs & _).
  fold (function_call_items response) in Hpairs. cbn [app] in Hrun.
  exists results, s1. split; [exact Hrun|].
  pose proof (Forall2_length _ _ _ Hpairs) as Hlen.
  split; [done|]. split.
  { apply Forall_forall. intros out [k Hk]%list_elem_of_lookup.
    destruct (Forall2_lookup_r _ _ _ _ _ Hpairs Hk) as (rx & _ & Hans).
    by apply answers_is_tool_result in Hans as [? _]. }
  assert (length results ≠ 0%nat) as Hlen0.
  { rewrite <- Hlen. by destruct (function_call_items response). }
  split.
  - intros e w' Hcreate. cbn [previous_response_loop].
    unfold invoke_functions_from_response.
    rewrite (bind_returns _ _ _ _ _ Hrun), decide_False by done.
    run. rewrite Hcreate. run. eauto.
  - intros response' w' Hcreate. cbn [previous_response_loop].
    unfold invoke_functions_from_response.
    rewrite (bind_returns _ _ _ _ _ Hrun), decide_False by done.
    run. rewrite Hcreate. run. eauto.
Qed.

(** ** The zip comprehension *)

(** X8.  [interleave] pairs its two lists position by position and, like [zip],
    stops at the shorter one: it returns twice as many items as the shorter
    list holds, and whatever the longer list holds beyond that is dropped. *)
Theorem interleave_stops_at_shorter (cs os : list conversation_item) :
  length (interleave cs os) = (2 * (length cs `min` length os))%nat ∧
  interleave cs os =
    interleave (take (length cs `min` length os) cs)
               (take (length cs `min` length os) os).
Proof.
  revert os. induction cs as [|c cs IH]; intros [|o os]; try done.
  destruct (IH os) as [Hlen Htake]. cbn [length].
  replace (S (length cs) `min` S (length os))%nat
    with (S (length cs `min` length os)) by lia.
  cbn [take]. rewrite !interleave_cons. cbn [length]. split.
  - rewrite Hlen. lia.
  - by rewrite <- Htake.
Qed.

End Facts.

(** * The scenarios, run *)

Module Runs.
Import Scenario.

(** The endpoint answers with "pong" at once: one round, "pong" printed. *)
Example ping_pong :
  let run := manual_conversation_cell (RT := runtime [inr pong] (inl unreachable))
               1 ["ping"] fresh in
  run.1 = Returns () ∧
  conversation run.2 =
    [user_message "ping"; to_dict (ResponseOutputMessage "msg_1" "pong")] ∧
  stdout run.2 !! 1%nat = Some "pong" ∧
  length (filter (λ ev, is_endpoint_call ev = true) (trace run.2)) = 1%nat.
Proof. vm_compute. repeat split. Qed.

(** One tool round, then the answer. *)
Example echo_then_pong :
  let run := manual_conversation_cell
               (RT := runtime [inr call_echo; inr pong] (inl unreachable))
               2 ["ping"] fresh in
  run.1 = Returns () ∧
  conversation run.2 =
    [user_message "ping";
     to_dict (ResponseReasoningItem "rs_1" ["thinking"]);
     to_dict (ResponseFunctionToolCall "fc_1" "c1" "echo" "hi");
     function_call_output "c1" "hi";
     to_dict (ResponseOutputMessage "msg_1" "pong")].
Proof. vm_compute. repeat split. Qed.

(** A tool nobody registered: the loop goes on to the next round. *)
Example mystery_then_pong :
  let run := manual_conversation_cell
               (RT := runtime [inr call_mystery; inr pong] (inl unreachable))
               2 ["ping"] fresh in
  run.1 = Returns () ∧
  conversation run.2 =
    [user_message "ping";
     to_dict (ResponseFunctionToolCall "fc_2" "c2" "mystery" "hi");
     function_call_output "c2"
       "ERROR - No tool registered for function call: mystery";
     to_dict (ResponseOutputMessage "msg_1" "pong")].
Proof. vm_compute. repeat split. Qed.

(** The inline cell stops with [ValueError] on the same response. *)
Example mystery_inline :
  (inline_function_calls (RT := runtime [] (inr pong)) call_mystery fresh).1 =
  Raises (Exception "ValueError" "No tool found for function call: mystery").
Proof. reflexivity. Qed.

Lemma greedy_never_stops s : round_stops (RT := greedy) s = false.
Proof.
  unfold round_stops. cbn.
  destruct (world s); reflexivity.
Qed.

Lemma greedy_always_asks req w :
  ∃ response w',
    responses_create (Runtime := greedy) req w = (inr response, w') ∧
    function_call_items response ≠ [].
Proof.
  exists call_echo, (S w). split; [|done].
  cbn. unfold scripted. by destruct w.
Qed.

(** C1, refuted as stated.  Against an endpoint that asks for a tool call in
    every round neither loop of the notebook ever stops: after five rounds
    of fuel the manual loop has called the endpoint five times and is still
    running, and for no amount of fuel does either loop return or raise.  No
    round limit and no RunawayLoopError exist in the code. *)
Lemma greedy_endpoint_is_never_left :
  length (filter (λ ev, is_endpoint_call ev = true)
            (trace (response_loop (RT := greedy) 5 fresh).2)) = 5%nat ∧
  (∀ max_rounds, (response_loop (RT := greedy) max_rounds fresh).1 = OutOfFuel) ∧
  (∀ max_rounds,
     (previous_response_cell (RT := greedy) max_rounds "ping" fresh).1 = OutOfFuel).
Proof.
  split; [by vm_compute|]. split.
  - intros max_rounds. apply response_loop_never_stopped, greedy_never_stops.
  - intros max_rounds. unfold previous_response_cell.
    rewrite bind_unfold. cbn -[previous_response_loop].
    by apply previous_response_loop_never_stopped; [apply greedy_always_asks|].
Qed.

(** ** The theorems at the scenarios *)

Lemma invoke_pairs_outputs_with_requests_at_call_three :
  NoDup (request_call_id <$> function_call_items call_three) ∧
  ∃ results,
    (invoke_functions_from_response (RT := runtime [] (inr pong))
       call_three fresh).1 = Returns results ∧
    length results = 3%nat ∧
    ∀ out, out ∈ results →
      exists ! rx, rx ∈ function_call_items call_three ∧ answers rx out = true.
Proof.
  assert (NoDup (request_call_id <$> function_call_items call_three)) as Hnodup.
  { apply (bool_decide_unpack _). by vm_compute. }
  split; [exact Hnodup|].
  destruct (invoke_pairs_outputs_with_requests
              (RT := runtime [] (inr pong)) call_three fresh)
    as (results & s' & Hrun & Hlen & _ & _ & Hunique).
  exists results. rewrite Hrun. split; [reflexivity|]. split; [exact Hlen|].
  exact (proj1 (Hunique Hnodup)).
Defined.

Lemma unregistered_tool_is_reported_at_call_mystery :
  tool_mapping (Runtime := runtime [inr call_mystery] (inr pong)) !! "mystery" = None ∧
  ∃ s',
    response_loop_body (RT := runtime [inr call_mystery] (inr pong)) fresh =
      (Returns Continue, s') ∧
    function_call_output "c2"
      "ERROR - No tool registered for function call: mystery" ∈ conversation s'.
Proof.
  split; [reflexivity|].
  exact (proj2 (unregistered_tool_is_reported
                  (RT := runtime [inr call_mystery] (inr pong))
                  call_mystery [] [] "fc_2" "c2" "mystery" "hi" eq_refl eq_refl)
           fresh 1%nat eq_refl).
Defined.

Lemma failing_tool_is_reported_at_call_three :
  ∃ earlier later s',
    invoke_functions_from_response (RT := runtime [] (inr pong)) call_three fresh =
      (Returns (earlier ++
                function_call_output "c4"
                  "Error executing function call: failing: boom"
                :: later), s') ∧
    length earlier = 1%nat.
Proof.
  exact (failing_tool_is_reported (RT := runtime [] (inr pong)) call_three
           [ResponseReasoningItem "rs_3" ["plan"];
            ResponseFunctionToolCall "fc_3" "c3" "echo" "one";
            ResponseOutputMessage "msg_3" "working"]
           [ResponseFunctionToolCall "fc_5" "c5" "echo" "{"]
           "fc_4" "c4" "failing" "two" failing (Exception "RuntimeError" "boom")
           fresh eq_refl eq_refl eq_refl).
Defined.

(** C5, refuted as stated.  In a round with three function calls the
    outputs stand between the requests: the first output comes before the
    second request, so the round does not append its requests and then their
    outputs. *)
Lemma requests_and_outputs_alternate :
  conversation
    (response_loop_body (RT := runtime [inr call_three] (inr pong)) fresh).2 =
    [to_dict (ResponseReasoningItem "rs_3" ["plan"]);
     to_dict (ResponseFunctionToolCall "fc_3" "c3" "echo" "one");
     function_call_output "c3" "one";
     to_dict (ResponseFunctionToolCall "fc_4" "c4" "failing" "two");
     function_call_output "c4" "Error executing function call: failing: boom";
     to_dict (ResponseFunctionToolCall "fc_5" "c5" "echo" "{");
     function_call_output "c5"
       "Error executing function call: echo: Expecting property name enclosed in double quotes";
     to_dict (ResponseOutputMessage "msg_3" "working")] ∧
  ¬ (∃ results rest,
       conversation
         (response_loop_body (RT := runtime [inr call_three] (inr pong)) fresh).2 =
       conversation fresh ++
       (to_dict <$> reasoning_items call_three) ++
       (to_dict <$> function_call_items call_three) ++
       results ++ rest).
Proof.
  split; [by vm_compute|].
  intros (results & rest & Heq). vm_compute in Heq. discriminate Heq.
Qed.

Lemma round_appends_in_order_at_call_three :
  ∃ function_outputs appended c s',
    response_loop_body (RT := runtime [inr call_three] (inr pong)) fresh =
      (Returns c, s') ∧
    conversation s' = conversation fresh ++ appended ∧
    appended =
      [to_dict (ResponseReasoningItem "rs_3" ["plan"]);
       to_dict (ResponseFunctionToolCall "fc_3" "c3" "echo" "one");
       function_call_output "c3" "one";
       to_dict (ResponseFunctionToolCall "fc_4" "c4" "failing" "two");
       function_call_output "c4" "Error executing function call: failing: boom";
       to_dict (ResponseFunctionToolCall "fc_5" "c5" "echo" "{");
       function_call_output "c5"
         "Error executing function call: echo: Expecting property name enclosed in double quotes";
       to_dict (ResponseOutputMessage "msg_3" "working")] ∧
    Forall2 (λ rx out, answers rx out = true)
      (function_call_items call_three) function_outputs.
Proof.
  destruct (round_appends_in_order (RT := runtime [inr call_three] (inr pong))
              fresh call_three 1%nat eq_refl)
    as (outs & appended & c & s' & Hbody & Hconv & Happ & Hpairs & _).
  exists outs, appended, c, s'.
  split; [exact Hbody|]. split; [exact Hconv|]. split; [|exact Hpairs].
  apply (f_equal snd) in Hbody. cbn [snd] in Hbody.
  rewrite <- Hbody in Hconv. vm_compute in Hconv. symmetry. exact Hconv.
Defined.


Lemma endpoint_error_propagates_at_unreachable :
  ∃ s',
    response_loop (RT := runtime [] (inl unreachable)) 1 fresh =
      (Raises unreachable, s') ∧
    conversation s' = conversation fresh.
Proof.
  destruct (endpoint_error_propagates (RT := runtime [] (inl unreachable))
              fresh unreachable 1%nat eq_refl)
    as (s' & _ & Hconv & Hloop & _).
  exists s'. split; [apply Hloop|exact Hconv].
Defined.

Lemma messages_do_not_end_the_loop_at_call_three :
  message_items call_three ≠ [] ∧
  ∃ earlier s',
    response_loop_body (RT := runtime [inr call_three] (inr pong)) fresh =
      (Returns Continue, s') ∧
    conversation s' =
      conversation fresh ++ earlier ++ (to_dict <$> message_items call_three).
Proof.
  split; [intros Hnil; vm_compute in Hnil; discriminate Hnil|].
  destruct (messages_do_not_end_the_loop
              (RT := runtime [inr call_three] (inr pong))
              fresh call_three 1%nat eq_refl)
    as (earlier & c & s' & Hbody & Hconv & _ & Hgo).
  destruct Hgo as [-> _].
  { intros Hnil. vm_compute in Hnil. discriminate Hnil. }
  exists earlier, s'. split; [exact Hbody|exact Hconv].
Defined.

Lemma manual_loop_keeps_pairing_at_call_three :
  well_paired
    (conversation
       (user_turns (RT := runtime [inr call_three; inr pong] (inr pong))
          2 ["ping"] fresh).2) = true ∧
  Forall (λ ev, sends_well_paired ev = true)
    (trace
       (user_turns (RT := runtime [inr call_three; inr pong] (inr pong))
          2 ["ping"] fresh).2).
Proof.
  apply (manual_loop_keeps_pairing
           (RT := runtime [inr call_three; inr pong] (inr pong)) 2 ["ping"] fresh).
  - reflexivity.
  - apply Forall_nil. exact I.
Defined.

Lemma helper_agrees_with_inline_cell_at_call_echo :
  ∃ t',
    invoke_functions_from_response (RT := runtime [] (inr pong)) call_echo fresh =
      (Returns [function_call_output "c1" "hi"], t') ∧
    world t' = 0%nat.
Proof.
  destruct (helper_agrees_with_inline_cell (RT := runtime [] (inr pong))
              call_echo fresh [function_call_output "c1" "hi"]
              (inline_function_calls (RT := runtime [] (inr pong)) call_echo fresh).2
              eq_refl)
    as (t' & Hrun & Hworld & _).
  exists t'. split; [exact Hrun|exact Hworld].
Defined.

Lemma inline_cell_stops_at_first_failure_at_call_three :
  ∃ s2,
    inline_function_calls (RT := runtime [] (inr pong)) call_three fresh =
      (Raises (Exception "RuntimeError" "boom"), s2).
Proof.
  destruct (inline_cell_stops_at_first_failure (RT := runtime [] (inr pong))
              call_three
              [ResponseFunctionToolCall "fc_3" "c3" "echo" "one"]
              "fc_4" "c4" "failing" "two"
              [ResponseFunctionToolCall "fc_5" "c5" "echo" "{"]
              fresh [function_call_output "c3" "one"]
              (for_in [ResponseFunctionToolCall "fc_3" "c3" "echo" "one"]
                 (inline_function_call (RT := runtime [] (inr pong))) [] fresh).2
              eq_refl eq_refl)
    as [_ Hraise].
  destruct (Hraise failing (Exception "RuntimeError" "boom") eq_refl eq_refl)
    as (s2 & Hrun & _).
  exists s2. exact Hrun.
Defined.

Lemma previous_response_loop_chains_at_call_echo :
  ∃ results s1,
    invoke_functions_from_response (RT := greedy) call_echo fresh =
      (Returns results, s1) ∧
    length results = 1%nat.
Proof.
  destruct (previous_response_loop_chains (RT := greedy) 1 call_echo fresh)
    as (results & s1 & Hrun & Hlen & _).
  { intros Hnil. vm_compute in Hnil. discriminate Hnil. }
  exists results, s1. split; [exact Hrun|exact Hlen].
Defined.

End Runs.
